(** * ksat: task runners [List] (concurrent fan-out) and [Chain] (sequential, fail-fast)

    A shallow embedding of [task.go].  Go values are modelled as follows.

    - [error] is an interface value: [None] is [nil], [Some e] a non-nil error.
    - A call of a Go function either returns or panics, and may change
      whatever the callee can reach.  Everything tasks and handlers can
      observe or mutate is one abstract [World] that is threaded through
      every call.
    - A slice is [nil] or a sequence of elements; capacity and the sharing of
      backing arrays are not modelled (nothing in [task.go] observes them).
    - [go f(args)] adds a goroutine to a pool; the pool is run by an
      interleaving small-step semantics whose atomic steps are the calls
      [task.Run(ctx)] and [handler(err)].
    - A ghost trace records every call of a task and of a handler, tagged
      with the position of the task in the registered sequence. *)

From stdpp Require Import base option list strings.

Section ksat.

Context {Ctx World Err : Type}.

(** ** Go values *)

(** The [error] interface: [None] is [nil]. *)
Definition error : Type := option Err.

(** What a call does: it returns a value or panics, leaving a new world. *)
Inductive result (A : Type) : Type :=
| Ret (a : A) (w : World)
| Panic (w : World).
Global Arguments Ret {A} a w.
Global Arguments Panic {A} w.

(** A slice: [None] is the [nil] slice, [Some l] a non-nil slice holding [l]. *)
Definition slice (A : Type) : Type := option (list A).

Definition elems {A} (s : slice A) : list A := default [] s.

Definition len {A} (s : slice A) : nat := length (elems s).

(** [append(s, xs...)]: with nothing to add the slice is returned as it is
    (in particular [nil] stays [nil]), otherwise the result is non-nil. *)
Definition append {A} (s : slice A) (xs : list A) : slice A :=
  match xs with
  | [] => s
  | _ :: _ => Some (elems s ++ xs)
  end.

(** ** Task, Func, ErrorHandler *)

(** [type Task interface { Run(context.Context) error }]: the nil interface,
    or a value of some type with a [Run] method. *)
Inductive Task : Type :=
| nil_Task
| Task_impl (run : Ctx → World → result error).

(** Calling [Run] through the interface; on the nil interface it panics. *)
Definition Task_Run (t : Task) (ctx : Ctx) (w : World) : result error :=
  match t with
  | nil_Task => Panic w
  | Task_impl run => run ctx w
  end.

(** [type Func func(context.Context) error]: a function value, possibly nil. *)
Inductive Func : Type :=
| nil_Func
| Func_lit (f : Ctx → World → result error).

(** The call expression [fn(ctx)] on a value of function type. *)
Definition call_Func (fn : Func) (ctx : Ctx) (w : World) : result error :=
  match fn with
  | nil_Func => Panic w
  | Func_lit f => f ctx w
  end.

(** [func (fn Func) Run(ctx context.Context) error { return fn(ctx) }] *)
Definition Func_Run (fn : Func) (ctx : Ctx) (w : World) : result error :=
  call_Func fn ctx w.

(** A [Func] stored in a [Task] interface: the method set of [Func] is [Run]. *)
Definition Func_as_Task (fn : Func) : Task := Task_impl (Func_Run fn).

(** [type ErrorHandler func(error)] *)
Inductive ErrorHandler : Type :=
| nil_ErrorHandler
| ErrorHandler_lit (h : error → World → result unit).

(** The call expression [handler(err)]. *)
Definition call_ErrorHandler (h : ErrorHandler) (err : error) (w : World)
  : result unit :=
  match h with
  | nil_ErrorHandler => Panic w
  | ErrorHandler_lit f => f err w
  end.

(** [type task struct { t Task; e ErrorHandler }] *)
Record task : Type := mk_task { task_t : Task; task_e : ErrorHandler }.

(** ** The ghost trace *)

Inductive outcome : Type :=
| Returns (err : error)
| Panics.

Inductive event : Type :=
| EvGo (i : nat)
  (** the [go] statement for the [i]-th registered pair was executed *)
| EvTask (i : nat) (o : outcome)
  (** the [Run] method of the [i]-th registered task was called, with outcome [o] *)
| EvHandler (i : nat) (h : ErrorHandler) (err : error)
  (** the call [handler(err)] of the [i]-th pair was executed, [h] being the callee *)
.

(** The outcomes of the calls of task [i], oldest first. *)
Definition task_runs (i : nat) (tr : list event) : list outcome :=
  omap (λ ev, match ev with
              | EvTask j o => if decide (i = j) then Some o else None
              | _ => None
              end) tr.

(** The handler calls of pair [i]: callee and argument, oldest first. *)
Definition handler_calls (i : nat) (tr : list event)
  : list (ErrorHandler * error) :=
  omap (λ ev, match ev with
              | EvHandler j h err => if decide (i = j) then Some (h, err) else None
              | _ => None
              end) tr.

(** The positions for which a [go] statement was executed, oldest first. *)
Definition launches (tr : list event) : list nat :=
  omap (λ ev, match ev with EvGo i => Some i | _ => None end) tr.

(** ** Chain *)

(** [type Chain struct { tasks []Task }] *)
Record Chain : Type := mk_Chain { Chain_tasks : slice Task }.

(** [func (c *Chain) Add(t ...Task) { c.tasks = append(c.tasks, t...) }] *)
Definition Chain_Add (c : Chain) (t : list Task) : Chain :=
  {| Chain_tasks := append (Chain_tasks c) t |}.

(** The zero value [Chain{}]: the field is the nil slice. *)
Definition Chain_zero : Chain := {| Chain_tasks := None |}.

(** How the [for ... range c.tasks] loop of [Chain.Run] is left. *)
Inductive loop_exit : Type :=
| FallThrough            (** the range is exhausted *)
| EarlyReturn (err : Err) (** [return err] inside the loop, [err != nil] *)
| LoopPanic.             (** a call panicked *)

(** The loop of [Chain.Run] from position [i] on, over the remaining tasks:
<<
    for _, tsk := range c.tasks {
        if err := tsk.Run(ctx); err != nil {
            return err
        }
    }
>> *)
Fixpoint Chain_range (ctx : Ctx) (i : nat) (ts : list Task) (w : World)
  : loop_exit * World * list event :=
  match ts with
  | [] => (FallThrough, w, [])
  | tsk :: rest =>
      match Task_Run tsk ctx w with
      | Ret None w' =>
          let '(x, w'', tr) := Chain_range ctx (S i) rest w' in
          (x, w'', EvTask i (Returns None) :: tr)
      | Ret (Some err) w' => (EarlyReturn err, w', [EvTask i (Returns (Some err))])
      | Panic w' => (LoopPanic, w', [EvTask i Panics])
      end
  end.

(** How a call of [Chain.Run] ends. *)
Inductive exit : Type :=
| Returned (err : error)
| Panicked.

Record Chain_result : Type := mk_Chain_result {
  r_exit : exit;
  r_chain : Chain;      (** the receiver [*c] afterwards *)
  r_world : World;
  r_trace : list event;
}.

(** [func (c *Chain) Run(ctx context.Context) error]: the loop, and only
    when it falls through [c.tasks = nil; return nil]. *)
Definition Chain_Run (ctx : Ctx) (c : Chain) (w : World) : Chain_result :=
  match Chain_range ctx 0 (elems (Chain_tasks c)) w with
  | (FallThrough, w', tr) =>
      {| r_exit := Returned None; r_chain := {| Chain_tasks := None |};
         r_world := w'; r_trace := tr |}
  | (EarlyReturn err, w', tr) =>
      {| r_exit := Returned (Some err); r_chain := c;
         r_world := w'; r_trace := tr |}
  | (LoopPanic, w', tr) =>
      {| r_exit := Panicked; r_chain := c; r_world := w'; r_trace := tr |}
  end.

(** The tasks [ts], called one after the other from world [w], all return
    [nil]; the result is the world they leave. *)
Fixpoint all_succeed (ctx : Ctx) (ts : list Task) (w : World) : option World :=
  match ts with
  | [] => Some w
  | t :: rest =>
      match Task_Run t ctx w with
      | Ret None w' => all_succeed ctx rest w'
      | _ => None
      end
  end.

(** ** List *)

(** [type List struct { tasks []task }] *)
Record List : Type := mk_List { List_tasks : slice task }.

(** [func (l *List) Add(t Task, e ErrorHandler)
      { l.tasks = append(l.tasks, task{t: t, e: e}) }] *)
Definition List_Add (l : List) (t : Task) (e : ErrorHandler) : List :=
  {| List_tasks := append (List_tasks l) [{| task_t := t; task_e := e |}] |}.

(** The zero value [List{}]: the field is the nil slice. *)
Definition List_zero : List := {| List_tasks := None |}.

(** A goroutine started by [List.Run], by the point its body has reached:
<<
    go func(task Task, handler ErrorHandler) {
        if err := task.Run(ctx); err != nil {
            handler(err)
        }
    }(tsk.t, tsk.e)
>> *)
Inductive goroutine : Type :=
| GStart (task : Task) (handler : ErrorHandler)
  (** started with its two arguments evaluated; next is [task.Run(ctx)] *)
| GCall (handler : ErrorHandler) (err : error)
  (** [task.Run(ctx)] returned [err], [err != nil] held; next is [handler(err)] *)
| GExit
  (** the body returned *)
| GPanic.
  (** a call in the body panicked *)

(** One step of the body of goroutine [i]: the new state, the new world and
    the event the step leaves in the trace.  A goroutine that has returned
    or panicked has no step. *)
Definition goroutine_step (ctx : Ctx) (i : nat) (g : goroutine) (w : World)
  : option (goroutine * World * event) :=
  match g with
  | GStart task handler =>
      match Task_Run task ctx w with
      | Ret None w' => Some (GExit, w', EvTask i (Returns None))
      | Ret (Some err) w' =>
          Some (GCall handler (Some err), w', EvTask i (Returns (Some err)))
      | Panic w' => Some (GPanic, w', EvTask i Panics)
      end
  | GCall handler err =>
      match call_ErrorHandler handler err w with
      | Ret _ w' => Some (GExit, w', EvHandler i handler err)
      | Panic w' => Some (GPanic, w', EvHandler i handler err)
      end
  | GExit | GPanic => None
  end.

(** The goroutine the [go] statement starts for the pair [tsk]: the function
    literal applied to [tsk.t] and [tsk.e], both evaluated by the caller. *)
Definition spawn (tsk : task) : goroutine := GStart (task_t tsk) (task_e tsk).

(** Where the goroutine that called [List.Run] is: in the [range] loop, at
    position [i] with the pairs [rest] still to visit (the range expression
    [l.tasks] is evaluated once, when the loop is entered), or returned. *)
Inductive main_state : Type :=
| MRange (i : nat) (rest : list task)
| MReturned.

(** A program state while [l.Run(ctx)] executes: the receiver, the caller,
    the goroutines started so far in the order they were started, the world
    and the trace (oldest event first). *)
Record config : Type := mk_config {
  cfg_list : List;
  cfg_main : main_state;
  cfg_pool : list goroutine;
  cfg_world : World;
  cfg_trace : list event;
}.

(** The state on entry to [l.Run(ctx)]. *)
Definition List_Run_enter (l : List) (w : World) : config :=
  {| cfg_list := l; cfg_main := MRange 0 (elems (List_tasks l));
     cfg_pool := []; cfg_world := w; cfg_trace := [] |}.

Definition is_GPanic (g : goroutine) : bool :=
  match g with GPanic => true | _ => false end.

(** A panic that is not recovered ends the whole program. *)
Definition crashed (c : config) : bool := existsb is_GPanic (cfg_pool c).

(** [func (l *List) Run(ctx context.Context)], one step of the caller at a
    time:
<<
    for _, tsk := range l.tasks {
        go func(task Task, handler ErrorHandler) { ... }(tsk.t, tsk.e)
    }
    l.tasks = nil
>>
    A loop iteration executes the [go] statement for the next pair; when the
    range is exhausted, [l.tasks = nil] and the method returns.  The method
    has no result, and no step looks at the pool. *)
Definition List_Run_step (c : config) : option config :=
  match cfg_main c with
  | MRange i (tsk :: rest) =>
      Some {| cfg_list := cfg_list c; cfg_main := MRange (S i) rest;
              cfg_pool := cfg_pool c ++ [spawn tsk];
              cfg_world := cfg_world c;
              cfg_trace := cfg_trace c ++ [EvGo i] |}
  | MRange i [] =>
      Some {| cfg_list := {| List_tasks := None |}; cfg_main := MReturned;
              cfg_pool := cfg_pool c; cfg_world := cfg_world c;
              cfg_trace := cfg_trace c |}
  | MReturned => None
  end.

(** One step of the goroutine at position [i] of the pool. *)
Definition pool_step (ctx : Ctx) (i : nat) (c : config) : option config :=
  g ← cfg_pool c !! i;
  '(g', w', ev) ← goroutine_step ctx i g (cfg_world c);
  Some {| cfg_list := cfg_list c; cfg_main := cfg_main c;
          cfg_pool := <[i := g']> (cfg_pool c);
          cfg_world := w'; cfg_trace := cfg_trace c ++ [ev] |}.

(** What the scheduler can choose: the caller, or a started goroutine. *)
Inductive action : Type :=
| AMain
| AGo (i : nat).

Definition step (ctx : Ctx) (a : action) (c : config) : option config :=
  if crashed c then None
  else match a with
       | AMain => List_Run_step c
       | AGo i => pool_step ctx i c
       end.

(** Running a schedule; [None] when it asks for a step that is not there. *)
Fixpoint exec (ctx : Ctx) (sched : list action) (c : config) : option config :=
  match sched with
  | [] => Some c
  | a :: sched' => c' ← step ctx a c; exec ctx sched' c'
  end.

(** The states [l.Run(ctx)] can be in, under any scheduling. *)
Definition reachable (ctx : Ctx) (l : List) (w : World) (c : config) : Prop :=
  ∃ sched, exec ctx sched (List_Run_enter l w) = Some c.

(** Goroutine [i] has left its body, by returning or by panicking. *)
Definition finished (c : config) (i : nat) : Prop :=
  cfg_pool c !! i = Some GExit ∨ cfg_pool c !! i = Some GPanic.

(** ** The invariant of [List.Run] *)

(** What the trace holds about pair [i], whose registered entry is [p], when
    its goroutine is in state [g]. *)
Definition goroutine_inv (p : task) (i : nat) (tr : list event) (g : goroutine)
  : Prop :=
  match g with
  | GStart t h =>
      t = task_t p ∧ h = task_e p ∧ task_runs i tr = [] ∧ handler_calls i tr = []
  | GCall h err =>
      h = task_e p ∧ is_Some err ∧
      task_runs i tr = [Returns err] ∧ handler_calls i tr = []
  | GExit =>
      (task_runs i tr = [Returns None] ∧ handler_calls i tr = []) ∨
      (∃ e, task_runs i tr = [Returns (Some e)] ∧
            handler_calls i tr = [(task_e p, Some e)] ∧
            task_e p ≠ nil_ErrorHandler)
  | GPanic =>
      (task_runs i tr = [Panics] ∧ handler_calls i tr = []) ∨
      (∃ e, task_runs i tr = [Returns (Some e)] ∧
            handler_calls i tr = [(task_e p, Some e)])
  end.

(** The caller has started a goroutine for each pair it has passed, and the
    receiver is cleared exactly when the method has returned. *)
Definition main_inv (l : List) (c : config) : Prop :=
  match cfg_main c with
  | MRange i rest =>
      i = length (cfg_pool c) ∧ drop i (elems (List_tasks l)) = rest ∧
      cfg_list c = l
  | MReturned =>
      length (cfg_pool c) = len (List_tasks l) ∧
      cfg_list c = {| List_tasks := None |}
  end.

Definition List_Run_inv (l : List) (c : config) : Prop :=
  main_inv l c ∧
  launches (cfg_trace c) = seq 0 (length (cfg_pool c)) ∧
  ∀ i, match cfg_pool c !! i with
       | Some g => ∃ p, elems (List_tasks l) !! i = Some p ∧
                        goroutine_inv p i (cfg_trace c) g
       | None => task_runs i (cfg_trace c) = [] ∧
                 handler_calls i (cfg_trace c) = []
       end.

(** ** More vocabulary for the properties of the two runners *)

(** The outcome of a call, as the trace records it. *)
Definition outcome_of (r : result error) : outcome :=
  match r with
  | Ret err _ => Returns err
  | Panic _ => Panics
  end.

(** Every task outcome in the trace is what the [Run] method of the task
    registered at that position gave in some world. *)
Definition trace_justified (ctx : Ctx) (l : List) (tr : list event) : Prop :=
  ∀ i o, EvTask i o ∈ tr →
    ∃ p w0, elems (List_tasks l) !! i = Some p ∧
            outcome_of (Task_Run (task_t p) ctx w0) = o.

(** The task [t] returns nil whatever the world is. *)
Definition always_succeeds (ctx : Ctx) (t : Task) : Prop :=
  ∀ w, ∃ w', Task_Run t ctx w = Ret None w'.

(** An event moved [n] positions up. *)
Definition shift_event (n : nat) (ev : event) : event :=
  match ev with
  | EvGo i => EvGo (n + i)
  | EvTask i o => EvTask (n + i) o
  | EvHandler i h err => EvHandler (n + i) h err
  end.

(** [l.Add(p.t, p.e)] for each pair of [ps], in order. *)
Definition List_Add_all (l : List) (ps : list task) : List :=
  foldl (λ l' p, List_Add l' (task_t p) (task_e p)) l ps.

(** The world a call leaves, whether it returned or panicked. *)
Definition world_of {A} (r : result A) : World :=
  match r with
  | Ret _ w => w
  | Panic w => w
  end.

(** Where the body of a goroutine is after its handler call [r]. *)
Definition after_call (r : result unit) : goroutine :=
  match r with
  | Ret _ _ => GExit
  | Panic _ => GPanic
  end.

(** Between the states [c] and [c'] goroutine [i] called the handler of the
    pair [p] with the error [e]: it stood before the call [handler(err)] with
    [p]'s handler and [e]; the call is the one event added; and when the
    handler is the function [f], the world of [c'] is the world [f] leaves
    when applied to [e] in the world of [c] and the body has returned, or
    panicked if [f] did, while for the nil handler the body has panicked and
    the world is untouched. *)
Definition handler_applied (p : task) (e : Err) (i : nat) (c c' : config)
  : Prop :=
  cfg_pool c !! i = Some (GCall (task_e p) (Some e)) ∧
  cfg_trace c' = cfg_trace c ++ [EvHandler i (task_e p) (Some e)] ∧
  match task_e p with
  | ErrorHandler_lit f =>
      cfg_world c' = world_of (f (Some e) (cfg_world c)) ∧
      cfg_pool c' !! i = Some (after_call (f (Some e) (cfg_world c)))
  | nil_ErrorHandler =>
      cfg_world c' = cfg_world c ∧ cfg_pool c' !! i = Some GPanic
  end.

End ksat.

(** ** Concrete tasks and handlers

    The world is the log of what ran, contexts carry nothing, errors are
    messages. *)

Definition log : Type := list string.

Definition succeed (name : string) : @Task unit log string :=
  Func_as_Task (Func_lit (λ _ w, Ret None (w ++ [name]))).

Definition fail (msg : string) : @Task unit log string :=
  Func_as_Task (Func_lit (λ _ w, Ret (Some msg) (w ++ ["fail " +:+ msg]))).

Definition report (name : string) : @ErrorHandler log string :=
  ErrorHandler_lit (λ err w, Ret () (w ++ [name +:+ " got " +:+ default "nil" err])).

(** Scenario A: three tasks that succeed. *)
Definition chain_A : @Chain unit log string :=
  Chain_Add Chain_zero [succeed "a"; succeed "b"; succeed "c"].

(** Scenario B: the second of three tasks fails with "x". *)
Definition chain_B : @Chain unit log string :=
  Chain_Add Chain_zero [succeed "a"; fail "x"; succeed "c"].

(** Scenario C: a task that succeeds with handler H1, one that fails with
    "y" with handler H2. *)
Definition list_C : @List unit log string :=
  List_Add (List_Add List_zero (succeed "a") (report "H1")) (fail "y") (report "H2").

(** Scenario C after both goroutines ran to their end, the failing one first. *)
Definition cfg_C_done : @config unit log string :=
  default (List_Run_enter list_C [])
    (exec () [AMain; AMain; AMain; AGo 1; AGo 0; AGo 1] (List_Run_enter list_C [])).

(** Scenario C when [Run] has returned and no goroutine has taken a step. *)
Definition cfg_C_returned : @config unit log string :=
  default (List_Run_enter list_C [])
    (exec () [AMain; AMain; AMain] (List_Run_enter list_C [])).

(** A failing task registered with a nil handler. *)
Definition list_nil_handler : @List unit log string :=
  List_Add List_zero (fail "y") nil_ErrorHandler.

(** The same list when its goroutine has run to its end. *)
Definition cfg_nil_handler_done : @config unit log string :=
  default (List_Run_enter list_nil_handler [])
    (exec () [AMain; AGo 0; AGo 0] (List_Run_enter list_nil_handler [])).

(** A nil Task between two tasks that succeed. *)
Definition chain_nil_task : @Chain unit log string :=
  Chain_Add Chain_zero [succeed "a"; nil_Task; succeed "c"].

(** A nil Task registered in a List, with a handler. *)
Definition list_nil_task : @List unit log string :=
  List_Add List_zero nil_Task (report "H").

(** Two tasks that succeed, registered with nil handlers. *)
Definition list_ok : @List unit log string :=
  List_Add_all List_zero
    [mk_task (succeed "a") nil_ErrorHandler; mk_task (succeed "b") nil_ErrorHandler].

(** [list_ok] after both goroutines ran, the second one first. *)
Definition cfg_ok_done : @config unit log string :=
  default (List_Run_enter list_ok [])
    (exec () [AMain; AMain; AGo 1; AMain; AGo 0] (List_Run_enter list_ok [])).

(** Scenario C when the failing task has returned "y" and its handler has
    not been called yet. *)
Definition cfg_C_pending : @config unit log string :=
  default (List_Run_enter list_C [])
    (exec () [AMain; AMain; AMain; AGo 1; AGo 0] (List_Run_enter list_C [])).

(** * Properties *)

Section ksat_properties.

Context {Ctx World Err : Type}.

Local Abbreviation Task := (@Task Ctx World Err).
Local Abbreviation Func := (@Func Ctx World Err).
Local Abbreviation ErrorHandler := (@ErrorHandler World Err).
Local Abbreviation task := (@task Ctx World Err).
Local Abbreviation event := (@event World Err).
Local Abbreviation Chain := (@Chain Ctx World Err).
Local Abbreviation List := (@List Ctx World Err).
Local Abbreviation config := (@config Ctx World Err).
Local Abbreviation goroutine := (@goroutine Ctx World Err).

Implicit Types (ctx : Ctx) (w : World) (e : Err) (err : @error Err).
Implicit Types (t : Task) (ts : list Task) (c : Chain) (tr : list event).

(** ** Slices *)

Lemma elems_append {A} (s : slice A) (xs : list A) :
  elems (append s xs) = elems s ++ xs.
Proof. destruct xs; simpl; [by rewrite app_nil_r | done]. Qed.

Lemma len_0_elems {A} (s : slice A) : len s = 0 → elems s = [].
Proof. unfold len. by destruct (elems s). Qed.

(** ** Reading the trace *)

(** The events of tasks that returned nil at positions [i], [i+1], ..., [i+n-1]. *)
Local Abbreviation ok_events i n :=
  ((λ j, EvTask j (Returns None) : event) <$> seq i n).

Lemma task_runs_app i tr1 tr2 :
  task_runs i (tr1 ++ tr2) = task_runs i tr1 ++ task_runs i tr2.
Proof. apply omap_app. Qed.

Lemma handler_calls_app i tr1 tr2 :
  handler_calls i (tr1 ++ tr2) = handler_calls i tr1 ++ handler_calls i tr2.
Proof. apply omap_app. Qed.

Lemma launches_app tr1 tr2 : launches (tr1 ++ tr2) = launches tr1 ++ launches tr2.
Proof. apply omap_app. Qed.

Lemma task_runs_ok_events_out j i n :
  j < i ∨ i + n ≤ j → task_runs j (ok_events i n) = [].
Proof.
  revert i. induction n as [|n IH]; intros i Hj; [done|].
  cbn [seq fmap list_fmap]. unfold task_runs at 1. cbn [omap list_omap].
  destruct (decide (j = i)) as [->|_]; [lia|].
  apply IH. lia.
Qed.

Lemma task_runs_ok_events_in j i n :
  i ≤ j < i + n → task_runs j (ok_events i n) = [Returns None].
Proof.
  revert i. induction n as [|n IH]; intros i Hj; [lia|].
  cbn [seq fmap list_fmap]. unfold task_runs at 1. cbn [omap list_omap].
  destruct (decide (j = i)) as [->|Hne].
  - f_equal. apply task_runs_ok_events_out. lia.
  - apply IH. lia.
Qed.

Lemma task_runs_singleton j i (o : @outcome Err) :
  task_runs j [EvTask i o : event] = if decide (j = i) then [o] else [].
Proof. unfold task_runs. simpl. by destruct (decide (j = i)). Qed.

(** ** Chain *)

Lemma Chain_range_all_succeed ctx ts : ∀ i w w',
  all_succeed ctx ts w = Some w' →
  Chain_range ctx i ts w = (FallThrough, w', ok_events i (length ts)).
Proof.
  induction ts as [|t ts IH]; intros i w w' H; simpl in *.
  - by simplify_eq.
  - destruct (Task_Run t ctx w) as [[e|] w1|w1]; try done.
    by rewrite (IH (S i) _ _ H).
Qed.

Lemma Chain_range_first_failure ctx k : ∀ ts i t e w wk wk',
  ts !! k = Some t →
  all_succeed ctx (take k ts) w = Some wk →
  Task_Run t ctx wk = Ret (Some e) wk' →
  Chain_range ctx i ts w =
    (EarlyReturn e, wk', ok_events i k ++ [EvTask (i + k) (Returns (Some e))]).
Proof.
  induction k as [|k IH]; intros [|t0 ts] i t e w wk wk' Hk Hok Hrun;
    simpl in *; try done.
  - simplify_eq. rewrite Hrun. by rewrite Nat.add_0_r.
  - destruct (Task_Run t0 ctx w) as [[e0|] w1|w1]; try done.
    rewrite (IH ts (S i) t e w1 wk wk' Hk Hok Hrun).
    by replace (S i + k) with (i + S k) by lia.
Qed.

(** When [Chain.Run] returns an error the receiver is what it was. *)
Lemma Chain_Run_error_keeps_chain ctx c w e :
  r_exit (Chain_Run ctx c w) = Returned (Some e) → r_chain (Chain_Run ctx c w) = c.
Proof.
  unfold Chain_Run.
  by destruct (Chain_range ctx 0 (elems (Chain_tasks c)) w) as [[[] ?] ?].
Qed.

(** When [Chain.Run] returns nil the receiver is cleared. *)
Lemma Chain_Run_nil_clears_chain ctx c w :
  r_exit (Chain_Run ctx c w) = Returned None →
  r_chain (Chain_Run ctx c w) = {| Chain_tasks := None |}.
Proof.
  unfold Chain_Run.
  by destruct (Chain_range ctx 0 (elems (Chain_tasks c)) w) as [[[] ?] ?].
Qed.

(** C2. In a Chain whose task at position [k] is the first to return a
    non-nil error [e] (the tasks before it, run in order, all return nil),
    [Run] returns exactly [e]; the tasks at positions [0..k-1] are each
    called once, in order and to completion, then the task at [k] is called
    once, and no task after position [k] is called. *)
Theorem Chain_Run_first_failure ctx c k t e w wk wk' :
  elems (Chain_tasks c) !! k = Some t →
  all_succeed ctx (take k (elems (Chain_tasks c))) w = Some wk →
  Task_Run t ctx wk = Ret (Some e) wk' →
  let r := Chain_Run ctx c w in
  r_exit r = Returned (Some e) ∧
  r_world r = wk' ∧
  r_trace r = ok_events 0 k ++ [EvTask k (Returns (Some e))] ∧
  (∀ i, i < k → task_runs i (r_trace r) = [Returns None]) ∧
  task_runs k (r_trace r) = [Returns (Some e)] ∧
  (∀ i, k < i → task_runs i (r_trace r) = []).
Proof.
  intros Hk Hok Hrun. unfold Chain_Run.
  rewrite (Chain_range_first_failure ctx k _ 0 t e w wk wk' Hk Hok Hrun).
  cbn [r_exit r_world r_trace Nat.add].
  split_and!; try done.
  - intros i Hi. rewrite task_runs_app, task_runs_singleton.
    rewrite task_runs_ok_events_in by lia.
    by destruct (decide (i = k)); [lia|].
  - rewrite task_runs_app, task_runs_singleton.
    rewrite task_runs_ok_events_out by lia.
    by destruct (decide (k = k)).
  - intros i Hi. rewrite task_runs_app, task_runs_singleton.
    rewrite task_runs_ok_events_out by lia.
    by destruct (decide (i = k)); [lia|].
Qed.

(** C3. In a Chain none of whose tasks returns a non-nil error (run in
    order, all return nil), [Run] returns nil, and every registered task is
    called exactly once, in registration order. *)
Theorem Chain_Run_all_succeed ctx c w w' :
  all_succeed ctx (elems (Chain_tasks c)) w = Some w' →
  let r := Chain_Run ctx c w in
  r_exit r = Returned None ∧
  r_world r = w' ∧
  r_trace r = ok_events 0 (len (Chain_tasks c)) ∧
  (∀ i, i < len (Chain_tasks c) → task_runs i (r_trace r) = [Returns None]) ∧
  (∀ i, len (Chain_tasks c) ≤ i → task_runs i (r_trace r) = []).
Proof.
  intros Hok. unfold Chain_Run.
  rewrite (Chain_range_all_succeed ctx _ 0 w w' Hok).
  cbn [r_exit r_world r_trace]. unfold len.
  split_and!; try done.
  - intros i Hi. apply task_runs_ok_events_in. lia.
  - intros i Hi. apply task_runs_ok_events_out. lia.
Qed.

(** C8. For every function value [fn] of the Task signature and every
    context, calling [Run] on [Func(fn)] through the [Task] interface is
    the call [fn(ctx)]: same return value (or panic), same effect. *)
Theorem Func_Run_forwards (fn : Func) ctx w :
  Task_Run (Func_as_Task fn) ctx w = call_Func fn ctx w.
Proof. reflexivity. Qed.

(** ** List: the invariant holds in every reachable state *)

Lemma List_Run_enter_inv (l : List) w : List_Run_inv l (List_Run_enter l w).
Proof.
  split_and!; simpl; [done | done |].
  intros i. by destruct i.
Qed.

(** The invariant of pair [i] reads only the events of pair [i]. *)
Lemma goroutine_inv_ext (p : task) i tr tr' (g : goroutine) :
  task_runs i tr' = task_runs i tr →
  handler_calls i tr' = handler_calls i tr →
  goroutine_inv p i tr g → goroutine_inv p i tr' g.
Proof. intros Hr Hc. destruct g; simpl; by rewrite Hr, Hc. Qed.

(** A step of goroutine [i] keeps its own invariant and leaves in the trace
    one event, which belongs to pair [i] and is not a launch. *)
Lemma goroutine_step_inv ctx (p : task) i tr (g g' : goroutine) w w' (ev : event) :
  goroutine_inv p i tr g →
  goroutine_step ctx i g w = Some (g', w', ev) →
  goroutine_inv p i (tr ++ [ev]) g' ∧
  launches [ev] = [] ∧
  ∀ j, j ≠ i → task_runs j [ev] = [] ∧ handler_calls j [ev] = [].
Proof.
  intros Hg Hstep.
  assert (Hother : ∀ o j, j ≠ i →
    task_runs j [EvTask i o : event] = [] ∧ handler_calls j [EvTask i o : event] = []).
  { intros o j Hj. rewrite task_runs_singleton. by destruct (decide (j = i)). }
  assert (Hother' : ∀ h err j, j ≠ i →
    task_runs j [EvHandler i h err : event] = [] ∧
    handler_calls j [EvHandler i h err : event] = []).
  { intros h err j Hj. unfold handler_calls. simpl. by destruct (decide (j = i)). }
  assert (Hself : ∀ h err,
    handler_calls i [EvHandler i h err : event] = [(h, err)]).
  { intros h err. unfold handler_calls. simpl. by destruct (decide (i = i)). }
  destruct g as [t h | h err | |]; simpl in Hstep; [| |done|done].
  - destruct Hg as (-> & -> & Hruns & Hcalls).
    destruct (Task_Run (task_t p) ctx w) as [[e|] w1|w1]; simplify_eq;
      (split; [|split; [done | by apply Hother]]);
      simpl; rewrite task_runs_app, handler_calls_app, Hruns, Hcalls,
        task_runs_singleton; destruct (decide (i = i)); try done; simpl;
      by left.
  - destruct Hg as (-> & [e ->] & Hruns & Hcalls).
    destruct (call_ErrorHandler (task_e p) (Some e) w) as [[] w1|w1] eqn:Hcall;
      simplify_eq; (split; [|split; [done | by apply Hother']]);
      simpl; rewrite task_runs_app, handler_calls_app, Hruns, Hcalls, Hself;
      right; exists e; split_and!; try done.
    intros Hnil. rewrite Hnil in Hcall. done.
Qed.

Lemma List_Run_step_inv (l : List) (c c' : config) :
  List_Run_inv l c → List_Run_step c = Some c' → List_Run_inv l c'.
Proof.
  intros (Hmain & Hgo & Hpool) Hstep.
  unfold List_Run_step in Hstep. unfold main_inv in Hmain.
  destruct (cfg_main c) as [i [|tsk rest]|] eqn:Hm; simplify_eq.
  - (* the range is exhausted: [l.tasks = nil] and return *)
    destruct Hmain as (Hi & Hdrop & Hl).
    split_and!; unfold main_inv; simpl; [|done|done].
    split; [|done]. unfold len.
    apply (f_equal length) in Hdrop. rewrite length_drop in Hdrop. simpl in Hdrop.
    destruct (length (cfg_pool c)) as [|n] eqn:Hn; [lia|].
    specialize (Hpool n).
    destruct (lookup_lt_is_Some_2 (cfg_pool c) n) as [g Hg]; [lia|].
    rewrite Hg in Hpool. destruct Hpool as (p & Hp & _).
    apply lookup_lt_Some in Hp. lia.
  - (* the [go] statement for pair [i] *)
    destruct Hmain as (Hi & Hdrop & Hl).
    assert (Hp : elems (List_tasks l) !! i = Some tsk).
    { rewrite <- (Nat.add_0_r i), <- lookup_drop, Hdrop. done. }
    split_and!; unfold main_inv; simpl.
    + split_and!; [| |done].
      * rewrite length_app. simpl. lia.
      * replace (S i) with (i + 1) by lia. by rewrite <- drop_drop, Hdrop.
    + rewrite launches_app, Hgo, length_app. simpl.
      rewrite Nat.add_1_r, seq_S. simpl. by rewrite <- Hi.
    + intros j. specialize (Hpool j).
      assert (Hr : task_runs j (cfg_trace c ++ [EvGo i]) = task_runs j (cfg_trace c))
        by (by rewrite task_runs_app; simpl; rewrite app_nil_r).
      assert (Hc : handler_calls j (cfg_trace c ++ [EvGo i])
                   = handler_calls j (cfg_trace c))
        by (by rewrite handler_calls_app; simpl; rewrite app_nil_r).
      destruct (decide (j < length (cfg_pool c))) as [Hlt|Hge].
      * rewrite lookup_app_l by done.
        destruct (cfg_pool c !! j) as [g|]; [|by rewrite Hr, Hc].
        destruct Hpool as (p & Hpj & Hinv). eauto using goroutine_inv_ext.
      * rewrite lookup_ge_None_2 in Hpool by lia.
        rewrite lookup_app_r by lia.
        destruct (j - length (cfg_pool c)) as [|n] eqn:Hj; simpl;
          [|by rewrite Hr, Hc].
        assert (j = i) as -> by lia.
        exists tsk. destruct Hpool as [Hr0 Hc0].
        split; [done|]. simpl. by rewrite Hr, Hc.
Qed.

Lemma pool_step_inv ctx (l : List) i (c c' : config) :
  List_Run_inv l c → pool_step ctx i c = Some c' → List_Run_inv l c'.
Proof.
  intros (Hmain & Hgo & Hpool) Hstep.
  unfold pool_step in Hstep.
  destruct (cfg_pool c !! i) as [g|] eqn:Hg; simpl in Hstep; [|done].
  destruct (goroutine_step ctx i g (cfg_world c)) as [[[g' w'] ev]|] eqn:Hgs;
    simpl in Hstep; simplify_eq.
  pose proof (Hpool i) as Hi. rewrite Hg in Hi. destruct Hi as (p & Hp & Hinv).
  destruct (goroutine_step_inv ctx p i _ g g' _ w' ev Hinv Hgs)
    as (Hinv' & Hno_go & Hothers).
  split_and!; unfold main_inv in *; simpl.
  - by rewrite length_insert.
  - by rewrite launches_app, Hno_go, app_nil_r, length_insert.
  - intros j. destruct (decide (j = i)) as [->|Hne].
    + rewrite list_lookup_insert_eq by (by eapply lookup_lt_Some). eauto.
    + rewrite list_lookup_insert_ne by done.
      destruct (Hothers j Hne) as [Hr Hc].
      assert (Hr' : task_runs j (cfg_trace c ++ [ev]) = task_runs j (cfg_trace c))
        by (by rewrite task_runs_app, Hr, app_nil_r).
      assert (Hc' : handler_calls j (cfg_trace c ++ [ev])
                    = handler_calls j (cfg_trace c))
        by (by rewrite handler_calls_app, Hc, app_nil_r).
      specialize (Hpool j).
      destruct (cfg_pool c !! j) as [gj|]; [|by rewrite Hr', Hc'].
      destruct Hpool as (pj & Hpj & Hinvj). eauto using goroutine_inv_ext.
Qed.

Lemma step_inv ctx (l : List) a (c c' : config) :
  List_Run_inv l c → step ctx a c = Some c' → List_Run_inv l c'.
Proof.
  unfold step. destruct (crashed c); [done|].
  destruct a; eauto using List_Run_step_inv, pool_step_inv.
Qed.

Lemma exec_inv ctx (l : List) sched : ∀ c c' : config,
  List_Run_inv l c → exec ctx sched c = Some c' → List_Run_inv l c'.
Proof.
  induction sched as [|a sched IH]; intros c c' Hinv Hexec; simpl in Hexec.
  - by simplify_eq.
  - destruct (step ctx a c) as [c1|] eqn:Hstep; simpl in Hexec; [|done].
    eauto using step_inv.
Qed.

Lemma reachable_inv ctx (l : List) w (c : config) :
  reachable ctx l w c → List_Run_inv l c.
Proof. intros [sched Hexec]. eauto using exec_inv, List_Run_enter_inv. Qed.

(** ** List: what the invariant gives *)

Lemma elem_of_task_runs i (o : @outcome Err) tr :
  EvTask i o ∈ tr → o ∈ task_runs i tr.
Proof.
  intros Hin. unfold task_runs. apply list_elem_of_omap.
  exists (EvTask i o). split; [done|]. simpl. by destruct (decide (i = i)).
Qed.

Lemma crashed_lookup (c : config) i : cfg_pool c !! i = Some GPanic → crashed c = true.
Proof.
  intros Hi. unfold crashed. apply existsb_exists.
  exists GPanic. split; [|done].
  apply list_elem_of_In. by eapply list_elem_of_lookup_2.
Qed.

(** In a state where goroutine [i] is about to call its handler, its next
    step is that call, and the goroutine is finished after it. *)
Lemma pool_step_GCall ctx (c : config) i (h : ErrorHandler) err :
  cfg_pool c !! i = Some (GCall h err) →
  ∃ c' : config, pool_step ctx i c = Some c' ∧
        cfg_trace c' = cfg_trace c ++ [EvHandler i h err] ∧
        (cfg_pool c' !! i = Some GExit ∧ h ≠ nil_ErrorHandler ∨
         cfg_pool c' !! i = Some GPanic).
Proof.
  intros Hi. unfold pool_step. rewrite Hi. simpl.
  pose proof (lookup_lt_Some _ _ _ Hi) as Hlt.
  destruct (call_ErrorHandler h err (cfg_world c)) as [[] w1|w1] eqn:Hcall;
    simpl; eexists; (split; [done|]); simpl; (split; [done|]);
    rewrite list_lookup_insert_eq by done.
  - left. split; [done|]. intros ->. done.
  - by right.
Qed.

Lemma handler_calls_snoc i tr (h : ErrorHandler) err :
  handler_calls i (tr ++ [EvHandler i h err]) = handler_calls i tr ++ [(h, err)].
Proof.
  rewrite handler_calls_app. f_equal.
  unfold handler_calls. simpl. by destruct (decide (i = i)).
Qed.

(** What a reachable state says about pair [i] once its task has returned
    the error [e]: the handler call is done, or it is the next step. *)
Lemma reachable_task_failed ctx (l : List) w (c : config) i (p : task) e :
  reachable ctx l w c →
  elems (List_tasks l) !! i = Some p →
  EvTask i (Returns (Some e)) ∈ cfg_trace c →
  task_runs i (cfg_trace c) = [Returns (Some e)] ∧
  (cfg_pool c !! i = Some (GCall (task_e p) (Some e)) ∧
     handler_calls i (cfg_trace c) = [] ∨
   cfg_pool c !! i = Some GExit ∧ task_e p ≠ nil_ErrorHandler ∧
     handler_calls i (cfg_trace c) = [(task_e p, Some e)] ∨
   cfg_pool c !! i = Some GPanic ∧
     handler_calls i (cfg_trace c) = [(task_e p, Some e)]).
Proof.
  intros Hreach Hp Hin.
  destruct (reachable_inv _ _ _ _ Hreach) as (_ & _ & Hpool).
  specialize (Hpool i). apply elem_of_task_runs in Hin.
  destruct (cfg_pool c !! i) as [g|].
  - destruct Hpool as (p' & Hp' & Hinv). simplify_eq.
    destruct g as [t h|h err| |]; simpl in Hinv.
    + destruct Hinv as (_ & _ & Hr & _). rewrite Hr in Hin. by apply elem_of_nil in Hin.
    + destruct Hinv as (-> & _ & Hr & Hc). rewrite Hr in Hin.
      apply list_elem_of_singleton in Hin. simplify_eq. naive_solver.
    + destruct Hinv as [[Hr Hc]|(e' & Hr & Hc & Hnil)]; rewrite Hr in Hin;
        apply list_elem_of_singleton in Hin; simplify_eq. naive_solver.
    + destruct Hinv as [[Hr Hc]|(e' & Hr & Hc)]; rewrite Hr in Hin;
        apply list_elem_of_singleton in Hin; simplify_eq. naive_solver.
  - destruct Hpool as [Hr _]. rewrite Hr in Hin. by apply elem_of_nil in Hin.
Qed.

(** What a reachable state says about pair [i] once its task has returned nil. *)
Lemma reachable_task_succeeded ctx (l : List) w (c : config) i :
  reachable ctx l w c →
  EvTask i (Returns None) ∈ cfg_trace c →
  cfg_pool c !! i = Some GExit ∧ handler_calls i (cfg_trace c) = [].
Proof.
  intros Hreach Hin.
  destruct (reachable_inv _ _ _ _ Hreach) as (_ & _ & Hpool).
  specialize (Hpool i). apply elem_of_task_runs in Hin.
  destruct (cfg_pool c !! i) as [g|].
  - destruct Hpool as (p' & Hp' & Hinv).
    destruct g as [t h|h err| |]; simpl in Hinv.
    + destruct Hinv as (_ & _ & Hr & _). rewrite Hr in Hin. by apply elem_of_nil in Hin.
    + destruct Hinv as (_ & [e ->] & Hr & Hc). rewrite Hr in Hin.
      apply list_elem_of_singleton in Hin. simplify_eq.
    + destruct Hinv as [[Hr Hc]|(e' & Hr & Hc & Hnil)]; rewrite Hr in Hin;
        apply list_elem_of_singleton in Hin; simplify_eq. naive_solver.
    + destruct Hinv as [[Hr Hc]|(e' & Hr & Hc)]; rewrite Hr in Hin;
        apply list_elem_of_singleton in Hin; simplify_eq.
  - destruct Hpool as [Hr _]. rewrite Hr in Hin. by apply elem_of_nil in Hin.
Qed.

(** A schedule only adds to the trace. *)
Lemma exec_trace_extends ctx sched : ∀ cf cf' : config,
  exec ctx sched cf = Some cf' → ∃ tr', cfg_trace cf' = cfg_trace cf ++ tr'.
Proof.
  induction sched as [|a sched IH]; intros cf cf' Hexec; simpl in Hexec.
  - simplify_eq. exists []. by rewrite app_nil_r.
  - destruct (step ctx a cf) as [c1|] eqn:Hstep; simpl in Hexec; [|done].
    destruct (IH _ _ Hexec) as [tr' ->].
    assert (∃ tr1, cfg_trace c1 = cfg_trace cf ++ tr1) as [tr1 ->].
    { unfold step in Hstep. destruct (crashed cf); [done|].
      destruct a as [|j].
      - unfold List_Run_step in Hstep.
        destruct (cfg_main cf) as [n [|tsk rest]|]; simplify_eq; simpl; eauto.
        exists []. by rewrite app_nil_r.
      - unfold pool_step in Hstep.
        destruct (cfg_pool cf !! j) as [g|]; simpl in Hstep; [|done].
        destruct (goroutine_step ctx j g (cfg_world cf)) as [[[g' w'] ev]|];
          simpl in Hstep; simplify_eq; simpl; eauto. }
    exists (tr1 ++ tr'). by rewrite app_assoc.
Qed.

(** The handler calls of pair [i] change only by a step of goroutine [i]
    that stands before its handler call. *)
Lemma step_new_handler_call ctx a (cf cf' : config) i :
  step ctx a cf = Some cf' →
  handler_calls i (cfg_trace cf') ≠ handler_calls i (cfg_trace cf) →
  a = AGo i ∧ ∃ (h : ErrorHandler) err, cfg_pool cf !! i = Some (GCall h err).
Proof.
  intros Hstep Hne. unfold step in Hstep. destruct (crashed cf); [done|].
  destruct a as [|j].
  - unfold List_Run_step in Hstep.
    destruct (cfg_main cf) as [n [|tsk rest]|]; simplify_eq; simpl in Hne;
      try done.
    rewrite handler_calls_app in Hne. simpl in Hne. by rewrite app_nil_r in Hne.
  - unfold pool_step in Hstep.
    destruct (cfg_pool cf !! j) as [g|] eqn:Hg; simpl in Hstep; [|done].
    destruct g as [t h|h err| |]; simpl in Hstep; [| |done|done].
    + destruct (Task_Run t ctx (cfg_world cf)) as [[e|] w1|w1];
        simpl in Hstep; simplify_eq; simpl in Hne;
        rewrite handler_calls_app in Hne; simpl in Hne;
        by rewrite app_nil_r in Hne.
    + destruct (decide (j = i)) as [->|Hji]; [eauto|].
      destruct (call_ErrorHandler h err (cfg_world cf)) as [[] w1|w1];
        simpl in Hstep; simplify_eq; simpl in Hne;
        rewrite handler_calls_app in Hne; unfold handler_calls at 2 in Hne;
        simpl in Hne; (destruct (decide (i = j)); [by subst|]);
        by rewrite app_nil_r in Hne.
Qed.

(** If pair [i] has a handler call in the trace at the end of a schedule
    and had none at its start, the schedule went through a step of
    goroutine [i] taken before its handler call. *)
Lemma exec_handler_call_history ctx i sched : ∀ cf cf' : config,
  exec ctx sched cf = Some cf' →
  handler_calls i (cfg_trace cf) = [] →
  handler_calls i (cfg_trace cf') ≠ [] →
  ∃ s1 (ca cb : config) s2 (h : ErrorHandler) err,
    exec ctx s1 cf = Some ca ∧ step ctx (AGo i) ca = Some cb ∧
    exec ctx s2 cb = Some cf' ∧ cfg_pool ca !! i = Some (GCall h err).
Proof.
  induction sched as [|a sched IH]; intros cf cf' Hexec Hnone Hsome;
    simpl in Hexec.
  - by simplify_eq.
  - destruct (step ctx a cf) as [c1|] eqn:Hstep; simpl in Hexec; [|done].
    destruct (handler_calls i (cfg_trace c1)) as [|x xs] eqn:Hc1.
    + destruct (IH _ _ Hexec Hc1 Hsome)
        as (s1 & ca & cb & s2 & h & err & H1 & H2 & H3 & H4).
      exists (a :: s1), ca, cb, s2, h, err. simpl. rewrite Hstep. simpl. eauto.
    + destruct (step_new_handler_call ctx a cf c1 i Hstep)
        as (-> & h & err & Hg); [by rewrite Hc1, Hnone|].
      exists [], cf, c1, sched, h, err. eauto.
Qed.

(** The step of a goroutine that stands before its handler call is that
    call: the handler, if it is a function, is applied to the error in the
    current world. *)
Lemma step_GCall_applies ctx (cf cf' : config) i (p : task) e :
  cfg_pool cf !! i = Some (GCall (task_e p) (Some e)) →
  step ctx (AGo i) cf = Some cf' →
  handler_applied p e i cf cf'.
Proof.
  intros Hg Hstep. unfold handler_applied. split; [done|].
  unfold step in Hstep. destruct (crashed cf); [done|].
  unfold pool_step in Hstep. rewrite Hg in Hstep. simpl in Hstep.
  pose proof (lookup_lt_Some _ _ _ Hg) as Hlt.
  destruct (task_e p) as [|f]; simpl in Hstep.
  - simplify_eq. simpl. by rewrite list_lookup_insert_eq.
  - destruct (f (Some e) (cfg_world cf)) as [[] w1|w1]; simpl in Hstep;
      simplify_eq; simpl; by rewrite list_lookup_insert_eq.
Qed.

(** C4. For every List and every registered pair (position [i], entry [p]),
    in every state [l.Run(ctx)] can reach: the pair's handler is called at
    most once; if the task returned a non-nil error [e], then once its
    goroutine is finished the handler calls of the pair are exactly one
    call of [p]'s handler with [e], and that call was a step of the
    execution in which [p]'s handler was applied to [e] in the world of
    that moment; while the goroutine is not finished that call is its next
    step, and the step applies [p]'s handler to [e] in the current world;
    if the task returned nil, the handler is not called. *)
Theorem List_Run_handler_called_iff_error ctx (l : List) w (c : config) i (p : task) :
  reachable ctx l w c →
  elems (List_tasks l) !! i = Some p →
  length (handler_calls i (cfg_trace c)) ≤ 1 ∧
  (∀ e, EvTask i (Returns (Some e)) ∈ cfg_trace c →
     (finished c i →
        handler_calls i (cfg_trace c) = [(task_e p, Some e)] ∧
        ∃ (c0 c1 : config) sched,
          reachable ctx l w c0 ∧ step ctx (AGo i) c0 = Some c1 ∧
          handler_applied p e i c0 c1 ∧ exec ctx sched c1 = Some c) ∧
     (¬ finished c i → crashed c = false →
        ∃ c' : config, step ctx (AGo i) c = Some c' ∧ finished c' i ∧
              handler_calls i (cfg_trace c') = [(task_e p, Some e)] ∧
              handler_applied p e i c c')) ∧
  (EvTask i (Returns None) ∈ cfg_trace c →
     finished c i ∧ handler_calls i (cfg_trace c) = []).
Proof.
  intros Hreach Hp. split_and!.
  - destruct (reachable_inv _ _ _ _ Hreach) as (_ & _ & Hpool).
    specialize (Hpool i). apply lookup_lt_Some in Hp as Hlt.
    destruct (cfg_pool c !! i) as [g|]; [|destruct Hpool as [_ ->]; simpl; lia].
    destruct Hpool as (p' & Hp' & Hinv). simplify_eq.
    destruct g; simpl in Hinv;
      repeat match goal with
             | H : _ ∧ _ |- _ => destruct H
             | H : _ ∨ _ |- _ => destruct H
             | H : ∃ _, _ |- _ => destruct H
             | H : handler_calls _ _ = _ |- _ => rewrite H
             end; simpl; lia.
  - intros e Hin.
    assert (Hdone : handler_calls i (cfg_trace c) = [(task_e p, Some e)] →
      ∃ (c0 c1 : config) sched,
        reachable ctx l w c0 ∧ step ctx (AGo i) c0 = Some c1 ∧
        handler_applied p e i c0 c1 ∧ exec ctx sched c1 = Some c).
    { intros Hc. destruct Hreach as [sched Hexec].
      destruct (exec_handler_call_history ctx i sched _ _ Hexec)
        as (s1 & ca & cb & s2 & h & err & H1 & H2 & H3 & Hg);
        [done | by rewrite Hc |].
      assert (Hreach_a : reachable ctx l w ca) by (by exists s1).
      destruct (reachable_inv _ _ _ _ Hreach_a) as (_ & _ & Hpool).
      specialize (Hpool i). rewrite Hg in Hpool.
      destruct Hpool as (p' & Hp' & -> & [e' ->] & _ & Hnone). simplify_eq.
      pose proof (step_GCall_applies ctx ca cb i p e' Hg H2) as Happ.
      pose proof Happ as (_ & Htr & _).
      destruct (exec_trace_extends ctx s2 cb c H3) as [tr' Hext].
      rewrite Hext, Htr, !handler_calls_app, Hnone in Hc.
      unfold handler_calls at 1 in Hc. simpl in Hc.
      destruct (decide (i = i)); [|done]. simpl in Hc. simplify_eq.
      exists ca, cb, s2. by split_and!. }
    destruct (reachable_task_failed _ _ _ _ _ _ _ Hreach Hp Hin)
      as (_ & [[Hg Hc]|[(Hg & _ & Hc)|[Hg Hc]]]).
    + split.
      * intros [Hf|Hf]; rewrite Hg in Hf; done.
      * intros _ Hcr.
        destruct (pool_step_GCall ctx c i _ _ Hg) as (c' & Hstep & Htr & Hfin).
        assert (Hstep' : step ctx (AGo i) c = Some c')
          by (unfold step; by rewrite Hcr).
        exists c'. split_and!; [done | | |].
        -- unfold finished. destruct Hfin as [[? _]|?]; auto.
        -- by rewrite Htr, handler_calls_snoc, Hc.
        -- by apply (step_GCall_applies ctx).
    + split; [auto|]. intros Hnf. destruct Hnf. by left.
    + split; [auto|]. intros Hnf. destruct Hnf. by right.
  - intros Hin.
    destruct (reachable_task_succeeded _ _ _ _ _ Hreach Hin) as [Hg Hc].
    split; [by left | done].
Qed.

(** C10. For every List holding a pair (position [i], entry [p]) whose
    handler is nil, in every state [l.Run(ctx)] can reach: if the pair's task
    returned a non-nil error [e], its goroutine calls the nil handler and
    panics (it has done so once it is finished, and does so at its next
    step while it is not), which ends the program; if the task returned nil
    the goroutine returns without a call; and the goroutine returns
    normally only after its task returned nil. *)
Theorem List_Run_nil_handler_panics ctx (l : List) w (c : config) i (p : task) :
  reachable ctx l w c →
  elems (List_tasks l) !! i = Some p →
  task_e p = nil_ErrorHandler →
  (∀ e, EvTask i (Returns (Some e)) ∈ cfg_trace c →
     (finished c i →
        cfg_pool c !! i = Some GPanic ∧ crashed c = true ∧
        handler_calls i (cfg_trace c) = [(nil_ErrorHandler, Some e)]) ∧
     (¬ finished c i → crashed c = false →
        ∃ c' : config, step ctx (AGo i) c = Some c' ∧
              cfg_pool c' !! i = Some GPanic ∧ crashed c' = true ∧
              handler_calls i (cfg_trace c') = [(nil_ErrorHandler, Some e)])) ∧
  (EvTask i (Returns None) ∈ cfg_trace c →
     cfg_pool c !! i = Some GExit ∧ handler_calls i (cfg_trace c) = []) ∧
  (cfg_pool c !! i = Some GExit → task_runs i (cfg_trace c) = [Returns None]).
Proof.
  intros Hreach Hp Hnil. split_and!.
  - intros e Hin.
    destruct (reachable_task_failed _ _ _ _ _ _ _ Hreach Hp Hin)
      as (_ & [[Hg Hc]|[(Hg & Hne & Hc)|[Hg Hc]]]); [| done |].
    + rewrite Hnil in Hg. split.
      * intros [Hf|Hf]; rewrite Hg in Hf; done.
      * intros _ Hcr. unfold step. rewrite Hcr.
        destruct (pool_step_GCall ctx c i _ _ Hg) as (c' & Hstep & Htr & Hfin).
        exists c'. destruct Hfin as [[_ ?]|Hg']; [done|].
        split_and!; [done | done | by eapply crashed_lookup |].
        by rewrite Htr, handler_calls_snoc, Hc.
    + rewrite Hnil in Hc. split.
      * intros _. split_and!; [done | by eapply crashed_lookup | done].
      * intros Hnf. destruct Hnf. by right.
  - intros Hin. by apply (reachable_task_succeeded ctx l w).
  - intros Hg.
    destruct (reachable_inv _ _ _ _ Hreach) as (_ & _ & Hpool).
    specialize (Hpool i). rewrite Hg in Hpool.
    destruct Hpool as (p' & Hp' & [[Hr _]|(e & _ & _ & Hne)]); simplify_eq; done.
Qed.

(** The caller alone: from inside the loop, as many caller steps as there
    are pairs left plus one start a goroutine for each pair left, clear the
    receiver and return, whatever the goroutines started so far are doing. *)
Lemma exec_main_only ctx (rest : list task) :
  ∀ i (l0 : List) (pool : list goroutine) w tr,
  existsb is_GPanic pool = false →
  exec ctx (replicate (S (length rest)) AMain)
    {| cfg_list := l0; cfg_main := MRange i rest; cfg_pool := pool;
       cfg_world := w; cfg_trace := tr |} =
  Some {| cfg_list := List_zero; cfg_main := MReturned;
          cfg_pool := pool ++ (spawn <$> rest); cfg_world := w;
          cfg_trace := tr ++ (EvGo <$> seq i (length rest)) |}.
Proof.
  induction rest as [|tsk rest IH]; intros i l0 pool w tr Hpool.
  - cbn [length replicate exec]. unfold step, crashed. cbn [cfg_pool].
    rewrite Hpool. simpl. by rewrite !app_nil_r.
  - cbn [length]. rewrite (replicate_S (S (length rest))).
    change (exec ctx (AMain :: ?s) ?c) with (step ctx AMain c ≫= exec ctx s).
    unfold step, crashed. cbn [cfg_pool]. rewrite Hpool.
    cbn [List_Run_step cfg_main cfg_list cfg_pool cfg_world cfg_trace mbind option_bind].
    rewrite IH.
    + by rewrite <- !app_assoc.
    + rewrite existsb_app, Hpool. done.
Qed.

(** C5. For every List: in every state [l.Run(ctx)] can reach, when the
    method has returned the receiver's task sequence is cleared; the caller
    never waits: as long as the program has not crashed and the method has
    not returned, the caller's next step is enabled and leaves the
    goroutines started so far as they are; and the method can return when
    no started goroutine has taken a single step.  A return carries no value. *)
Theorem List_Run_clears_and_does_not_wait ctx (l : List) w :
  (∀ cf : config, reachable ctx l w cf → cfg_main cf = MReturned →
     cfg_list cf = List_zero) ∧
  (∀ cf : config, reachable ctx l w cf → crashed cf = false →
     cfg_main cf ≠ MReturned →
     ∃ cf' : config, step ctx AMain cf = Some cf' ∧
       take (length (cfg_pool cf)) (cfg_pool cf') = cfg_pool cf ∧
       cfg_world cf' = cfg_world cf) ∧
  reachable ctx l w
    {| cfg_list := List_zero; cfg_main := MReturned;
       cfg_pool := spawn <$> elems (List_tasks l); cfg_world := w;
       cfg_trace := EvGo <$> seq 0 (len (List_tasks l)) |}.
Proof.
  split_and!.
  - intros cf Hreach Hret.
    destruct (reachable_inv _ _ _ _ Hreach) as (Hmain & _ & _).
    unfold main_inv in Hmain. rewrite Hret in Hmain. by destruct Hmain.
  - intros cf _ Hcr Hnot. unfold step. rewrite Hcr. unfold List_Run_step.
    destruct (cfg_main cf) as [i [|tsk rest]|]; [| |done]; eexists;
      (split; [done|]); simpl; split; try done.
    + by rewrite firstn_all.
    + by rewrite take_app_length.
  - exists (replicate (S (len (List_tasks l))) AMain).
    unfold List_Run_enter, len. by rewrite exec_main_only.
Qed.

(** C6. For every List with [N] registered pairs, in every state
    [l.Run(ctx)] can reach: the [go] statements executed so far are those
    for positions [0], [1], ... in this order, one goroutine each, never
    more than [N], and the goroutine at position [i] runs the task and the
    handler of the pair registered at position [i]; once the method has
    returned, exactly [N] goroutines have been started and the receiver
    holds 0 tasks, whatever state the goroutines are in. *)
Theorem List_Run_launches_each_pair ctx (l : List) w (cf : config) :
  reachable ctx l w cf →
  launches (cfg_trace cf) = seq 0 (length (cfg_pool cf)) ∧
  length (cfg_pool cf) ≤ len (List_tasks l) ∧
  (∀ i g, cfg_pool cf !! i = Some g →
     ∃ p, elems (List_tasks l) !! i = Some p ∧
          goroutine_inv p i (cfg_trace cf) g) ∧
  (cfg_main cf = MReturned →
     length (cfg_pool cf) = len (List_tasks l) ∧
     launches (cfg_trace cf) = seq 0 (len (List_tasks l)) ∧
     len (List_tasks (cfg_list cf)) = 0).
Proof.
  intros Hreach.
  destruct (reachable_inv _ _ _ _ Hreach) as (Hmain & Hgo & Hpool).
  assert (Hall : ∀ i g, cfg_pool cf !! i = Some g →
     ∃ p, elems (List_tasks l) !! i = Some p ∧
          goroutine_inv p i (cfg_trace cf) g).
  { intros i g Hg. specialize (Hpool i). by rewrite Hg in Hpool. }
  split_and!; [done | | done |].
  - unfold len. destruct (length (cfg_pool cf)) as [|n] eqn:Hn; [lia|].
    destruct (lookup_lt_is_Some_2 (cfg_pool cf) n) as [g Hg]; [lia|].
    destruct (Hall n g Hg) as (p & Hp & _).
    apply lookup_lt_Some in Hp. lia.
  - intros Hret. unfold main_inv in Hmain. rewrite Hret in Hmain.
    destruct Hmain as [Hlen ->]. by rewrite Hgo, Hlen.
Qed.

(** From the entry state of an empty List, the only step there is is the
    caller's return. *)
Lemma exec_empty_List ctx (l : List) w sched (cf : config) :
  len (List_tasks l) = 0 →
  exec ctx sched (List_Run_enter l w) = Some cf →
  cf = List_Run_enter l w ∨
  cf = {| cfg_list := List_zero; cfg_main := MReturned; cfg_pool := [];
          cfg_world := w; cfg_trace := [] |}.
Proof.
  intros Hlen%len_0_elems Hexec. unfold List_Run_enter in *. rewrite Hlen in *.
  destruct sched as [|a sched]; simpl in Hexec; [left; by simplify_eq|].
  destruct a as [|i]; [|done].
  cbn in Hexec.
  destruct sched as [|a sched]; simpl in Hexec; [right; by simplify_eq|].
  by destruct a.
Qed.

(** C7. Running an empty List or an empty Chain does nothing: for a List
    with no registered pair the method returns at the caller's first step,
    and in no reachable state is there a goroutine, an event or a change of
    the world; for a Chain with no registered task [Run] returns nil, calls
    no task and leaves the world as it is. *)
Theorem Run_empty_is_noop ctx w :
  (∀ l : List, len (List_tasks l) = 0 →
     exec ctx [AMain] (List_Run_enter l w) =
       Some {| cfg_list := List_zero; cfg_main := MReturned; cfg_pool := [];
               cfg_world := w; cfg_trace := [] |} ∧
     ∀ cf : config, reachable ctx l w cf →
       cfg_pool cf = [] ∧ cfg_world cf = w ∧ cfg_trace cf = []) ∧
  (∀ c, len (Chain_tasks c) = 0 →
     Chain_Run ctx c w =
       {| r_exit := Returned None; r_chain := Chain_zero;
          r_world := w; r_trace := [] |}).
Proof.
  split.
  - intros l Hlen. split.
    + unfold List_Run_enter. by rewrite (len_0_elems _ Hlen).
    + intros cf [sched Hexec].
      by destruct (exec_empty_List _ _ _ _ _ Hlen Hexec) as [-> | ->].
  - intros c Hlen. unfold Chain_Run. by rewrite (len_0_elems _ Hlen).
Qed.

(** Every non-nil exit of the loop of [Chain.Run] comes from a call of one
    of the tasks. *)
Lemma Chain_range_exit_from_task ctx ts : ∀ i w,
  match Chain_range ctx i ts w with
  | (FallThrough, _, _) => True
  | (EarlyReturn e, _, tr) =>
      ∃ k, k < length ts ∧ EvTask (i + k) (Returns (Some e)) ∈ tr
  | (LoopPanic, _, tr) => ∃ k, k < length ts ∧ EvTask (i + k) Panics ∈ tr
  end.
Proof.
  induction ts as [|t ts IH]; intros i w; simpl; [done|].
  destruct (Task_Run t ctx w) as [[e|] w1|w1].
  - exists 0. rewrite Nat.add_0_r. split; [lia | apply list_elem_of_here].
  - specialize (IH (S i) w1).
    destruct (Chain_range ctx (S i) ts w1) as [[[] w2] tr]; [done| |];
      destruct IH as (k & Hk & Hin); exists (S k);
      (split; [lia|]); apply list_elem_of_further;
      by replace (i + S k) with (S i + k) by lia.
  - exists 0. rewrite Nat.add_0_r. split; [lia | apply list_elem_of_here].
Qed.

(** C9. The zero values need no initializer: adding to a zero [Chain] or
    [List] registers exactly what was added, and running it afterwards does
    what it does from any other empty instance; the only error or panic that
    can come out of [Run] on a Chain built from the zero value is that of a
    call of one of the added tasks. *)
Theorem zero_value_is_usable ctx w :
  (∀ c0 ts, len (Chain_tasks c0) = 0 →
     elems (Chain_tasks (Chain_Add Chain_zero ts)) = ts ∧
     Chain_Run ctx (Chain_Add Chain_zero ts) w = Chain_Run ctx (Chain_Add c0 ts) w ∧
     match r_exit (Chain_Run ctx (Chain_Add Chain_zero ts) w) with
     | Returned None => True
     | Returned (Some e) =>
         ∃ k, k < length ts ∧
           EvTask k (Returns (Some e))
             ∈ r_trace (Chain_Run ctx (Chain_Add Chain_zero ts) w)
     | Panicked =>
         ∃ k, k < length ts ∧
           EvTask k Panics ∈ r_trace (Chain_Run ctx (Chain_Add Chain_zero ts) w)
     end) ∧
  (∀ (l0 : List) t (h : ErrorHandler), len (List_tasks l0) = 0 →
     elems (List_tasks (List_Add List_zero t h)) = [mk_task t h] ∧
     List_Add List_zero t h = List_Add l0 t h ∧
     ∀ sched, exec ctx sched (List_Run_enter (List_Add List_zero t h) w)
              = exec ctx sched (List_Run_enter (List_Add l0 t h) w)).
Proof.
  split.
  - intros c0 ts Hlen. apply len_0_elems in Hlen.
    assert (Helems : elems (Chain_tasks (Chain_Add Chain_zero ts)) = ts).
    { unfold Chain_Add. simpl. by rewrite elems_append. }
    split_and!; [done | |].
    + destruct ts as [|t ts].
      * unfold Chain_Add, Chain_Run. simpl. by rewrite Hlen.
      * unfold Chain_Add. simpl. by rewrite Hlen.
    + unfold Chain_Run. rewrite Helems.
      pose proof (Chain_range_exit_from_task ctx ts 0 w) as H.
      by destruct (Chain_range ctx 0 ts w) as [[[] w1] tr].
  - intros l0 t h Hlen. apply len_0_elems in Hlen.
    assert (Heq : List_Add List_zero t h = List_Add l0 t h).
    { unfold List_Add. simpl. by rewrite Hlen. }
    split_and!; [done | done |]. intros sched. by rewrite Heq.
Qed.

(** * Further properties of Chain *)

(** What the loop of [Chain.Run] did, read off the way it was left. *)
Lemma Chain_range_spec ctx ts : ∀ i w,
  match Chain_range ctx i ts w with
  | (FallThrough, w', tr) =>
      all_succeed ctx ts w = Some w' ∧ tr = ok_events i (length ts)
  | (EarlyReturn e, w', tr) =>
      ∃ k t wk, ts !! k = Some t ∧
        all_succeed ctx (take k ts) w = Some wk ∧
        Task_Run t ctx wk = Ret (Some e) w' ∧
        tr = ok_events i k ++ [EvTask (i + k) (Returns (Some e))]
  | (LoopPanic, w', tr) =>
      ∃ k t wk, ts !! k = Some t ∧
        all_succeed ctx (take k ts) w = Some wk ∧
        Task_Run t ctx wk = Panic w' ∧
        tr = ok_events i k ++ [EvTask (i + k) Panics]
  end.
Proof.
  induction ts as [|t ts IH]; intros i w; simpl; [done|].
  destruct (Task_Run t ctx w) as [[e|] w1|w1] eqn:Hrun.
  - exists 0, t, w. by rewrite Nat.add_0_r.
  - specialize (IH (S i) w1).
    destruct (Chain_range ctx (S i) ts w1) as [[[] w2] tr].
    + by destruct IH as [Hok ->].
    + destruct IH as (k & t' & wk & Hk & Hok & Hrun' & ->).
      exists (S k), t', wk. simpl. rewrite Hrun.
      by replace (i + S k) with (S i + k) by lia.
    + destruct IH as (k & t' & wk & Hk & Hok & Hrun' & ->).
      exists (S k), t', wk. simpl. rewrite Hrun.
      by replace (i + S k) with (S i + k) by lia.
  - exists 0, t, w. by rewrite Nat.add_0_r.
Qed.

Lemma Chain_range_panic ctx k : ∀ ts i t w wk wk',
  ts !! k = Some t →
  all_succeed ctx (take k ts) w = Some wk →
  Task_Run t ctx wk = Panic wk' →
  Chain_range ctx i ts w =
    (LoopPanic, wk', ok_events i k ++ [EvTask (i + k) Panics]).
Proof.
  induction k as [|k IH]; intros [|t0 ts] i t w wk wk' Hk Hok Hrun;
    simpl in *; try done.
  - simplify_eq. rewrite Hrun. by rewrite Nat.add_0_r.
  - destruct (Task_Run t0 ctx w) as [[e0|] w1|w1]; try done.
    rewrite (IH ts (S i) t w1 wk wk' Hk Hok Hrun).
    by replace (S i + k) with (i + S k) by lia.
Qed.

(** X1. [Chain.Run] returns nil only when every registered task, called in
    order, returned nil: then the world is the one the tasks left, every
    task was called once in order, and the receiver is cleared. *)
Theorem Chain_Run_nil_only_if_all_succeed ctx c w :
  r_exit (Chain_Run ctx c w) = Returned None →
  all_succeed ctx (elems (Chain_tasks c)) w = Some (r_world (Chain_Run ctx c w)) ∧
  r_trace (Chain_Run ctx c w) = ok_events 0 (len (Chain_tasks c)) ∧
  r_chain (Chain_Run ctx c w) = Chain_zero.
Proof.
  unfold Chain_Run, len.
  pose proof (Chain_range_spec ctx (elems (Chain_tasks c)) 0 w) as Hspec.
  destruct (Chain_range ctx 0 (elems (Chain_tasks c)) w) as [[[] w'] tr];
    simpl; intros Hexit; try done.
  by destruct Hspec as [-> ->].
Qed.

(** X2. An error returned by [Chain.Run] is never made up: some registered
    task returned exactly that error, every task before it returned nil, the
    world is the one that task left, and no task after it was called. *)
Theorem Chain_Run_error_comes_from_first_failure ctx c w e :
  r_exit (Chain_Run ctx c w) = Returned (Some e) →
  ∃ k t wk,
    elems (Chain_tasks c) !! k = Some t ∧
    all_succeed ctx (take k (elems (Chain_tasks c))) w = Some wk ∧
    Task_Run t ctx wk = Ret (Some e) (r_world (Chain_Run ctx c w)) ∧
    r_trace (Chain_Run ctx c w) = ok_events 0 k ++ [EvTask k (Returns (Some e))] ∧
    ∀ i, k < i → task_runs i (r_trace (Chain_Run ctx c w)) = [].
Proof.
  unfold Chain_Run.
  pose proof (Chain_range_spec ctx (elems (Chain_tasks c)) 0 w) as Hspec.
  destruct (Chain_range ctx 0 (elems (Chain_tasks c)) w) as [[[] w'] tr];
    simpl; intros Hexit; try done.
  simplify_eq. destruct Hspec as (k & t & wk & Hk & Hok & Hrun & ->).
  exists k, t, wk. split_and!; try done.
  intros i Hi. simpl. rewrite task_runs_app, task_runs_singleton.
  rewrite task_runs_ok_events_out by lia.
  by destruct (decide (i = k)); [lia|].
Qed.

(** X3. When the first task of a Chain that does not return nil panics (a
    nil [Task], or [Func(nil)], panics when called), [Chain.Run] panics: the
    tasks before it were each called once, in order, no task after it is
    called, and the receiver keeps its tasks. *)
Theorem Chain_Run_panics_at_first_panic ctx c k t w wk wk' :
  elems (Chain_tasks c) !! k = Some t →
  all_succeed ctx (take k (elems (Chain_tasks c))) w = Some wk →
  Task_Run t ctx wk = Panic wk' →
  let r := Chain_Run ctx c w in
  r_exit r = Panicked ∧
  r_world r = wk' ∧
  r_trace r = ok_events 0 k ++ [EvTask k Panics] ∧
  (∀ i, k < i → task_runs i (r_trace r) = []) ∧
  r_chain r = c.
Proof.
  intros Hk Hok Hrun. unfold Chain_Run.
  rewrite (Chain_range_panic ctx k _ 0 t w wk wk' Hk Hok Hrun).
  cbn [r_exit r_world r_trace r_chain Nat.add].
  split_and!; try done.
  intros i Hi. rewrite task_runs_app, task_runs_singleton.
  rewrite task_runs_ok_events_out by lia.
  by destruct (decide (i = k)); [lia|].
Qed.

(** X4. After a [Chain.Run] that returned nil, a second [Run] with no [Add]
    in between calls no task, returns nil and leaves the world as it is. *)
Theorem Chain_Run_again_after_success ctx c w w2 :
  r_exit (Chain_Run ctx c w) = Returned None →
  Chain_Run ctx (r_chain (Chain_Run ctx c w)) w2 =
    {| r_exit := Returned None; r_chain := Chain_zero;
       r_world := w2; r_trace := [] |}.
Proof.
  intros Hexit. by rewrite (Chain_Run_nil_clears_chain ctx c w Hexit).
Qed.

(** X6. [Chain.Add] appends in call order: the tasks afterwards are the
    tasks before followed by the arguments, two calls of [Add] are one call
    with the arguments concatenated, and [Add] with no argument changes
    nothing. *)
Theorem Chain_Add_appends c ts1 ts2 :
  elems (Chain_tasks (Chain_Add c ts1)) = elems (Chain_tasks c) ++ ts1 ∧
  len (Chain_tasks (Chain_Add c ts1)) = len (Chain_tasks c) + length ts1 ∧
  Chain_Add (Chain_Add c ts1) ts2 = Chain_Add c (ts1 ++ ts2) ∧
  Chain_Add c [] = c.
Proof.
  split_and!.
  - apply elems_append.
  - unfold len. simpl. by rewrite elems_append, length_app.
  - unfold Chain_Add. simpl. f_equal.
    destruct ts1 as [|t1 ts1], ts2 as [|t2 ts2]; simpl; try done.
    + by rewrite app_nil_r.
    + by rewrite <- app_assoc.
  - by destruct c.
Qed.

Lemma Chain_range_shift ctx ts n : ∀ i w,
  Chain_range ctx (n + i) ts w =
    let '(x, w', tr) := Chain_range ctx i ts w in (x, w', shift_event n <$> tr).
Proof.
  induction ts as [|t ts IH]; intros i w; simpl; [done|].
  destruct (Task_Run t ctx w) as [[e|] w1|w1]; try done.
  replace (S (n + i)) with (n + S i) by lia. rewrite IH.
  by destruct (Chain_range ctx (S i) ts w1) as [[x w2] tr].
Qed.

Lemma Chain_range_app ctx ts1 ts2 : ∀ i w,
  Chain_range ctx i (ts1 ++ ts2) w =
    match Chain_range ctx i ts1 w with
    | (FallThrough, w1, tr1) =>
        let '(x, w2, tr2) := Chain_range ctx (length ts1 + i) ts2 w1 in
        (x, w2, tr1 ++ tr2)
    | other => other
    end.
Proof.
  induction ts1 as [|t ts1 IH]; intros i w; simpl.
  - by destruct (Chain_range ctx i ts2 w) as [[x w2] tr2].
  - destruct (Task_Run t ctx w) as [[e|] w1|w1]; try done.
    rewrite IH. replace (length ts1 + S i) with (S (length ts1 + i)) by lia.
    destruct (Chain_range ctx (S i) ts1 w1) as [[[] w2] tr1]; try done.
    by destruct (Chain_range ctx (S (length ts1 + i)) ts2 w2) as [[x w3] tr2].
Qed.

(** X7. Adding tasks to a Chain and running it is running the Chain as it
    was and then, only if that returned nil, a Chain of the added tasks from
    the world the first run left: same exit, same world, and the calls of
    the second run follow those of the first, at positions moved up by the
    length of the first. *)
Theorem Chain_Run_after_Add ctx c ts w :
  let r1 := Chain_Run ctx c w in
  let r := Chain_Run ctx (Chain_Add c ts) w in
  match r_exit r1 with
  | Returned None =>
      let r2 := Chain_Run ctx (Chain_Add Chain_zero ts) (r_world r1) in
      r_exit r = r_exit r2 ∧ r_world r = r_world r2 ∧
      r_trace r = r_trace r1 ++ (shift_event (len (Chain_tasks c)) <$> r_trace r2)
  | _ =>
      r_exit r = r_exit r1 ∧ r_world r = r_world r1 ∧ r_trace r = r_trace r1
  end.
Proof.
  cbv zeta. unfold Chain_Run, len.
  replace (elems (Chain_tasks (Chain_Add c ts)))
    with (elems (Chain_tasks c) ++ ts) by (symmetry; apply elems_append).
  replace (elems (Chain_tasks (Chain_Add Chain_zero ts)))
    with ts by (symmetry; apply (elems_append None)).
  rewrite Chain_range_app.
  destruct (Chain_range ctx 0 (elems (Chain_tasks c)) w) as [[[] w1] tr1];
    simpl; try done.
  rewrite (Chain_range_shift ctx ts (length (elems (Chain_tasks c))) 0 w1).
  by destruct (Chain_range ctx 0 ts w1) as [[[] w2] tr2].
Qed.

(** * Further properties of List *)

Lemma elem_of_task_runs_inv i (o : @outcome Err) tr :
  o ∈ task_runs i tr → EvTask i o ∈ tr.
Proof.
  unfold task_runs. intros ([j| j o' |j h err] & Hin & Hf)%list_elem_of_omap;
    simpl in Hf; try done.
  destruct (decide (i = j)); by simplify_eq.
Qed.

Lemma elem_of_handler_calls i (h : ErrorHandler) err tr :
  EvHandler i h err ∈ tr → (h, err) ∈ handler_calls i tr.
Proof.
  intros Hin. unfold handler_calls. apply list_elem_of_omap.
  exists (EvHandler i h err). split; [done|]. simpl. by destruct (decide (i = i)).
Qed.

Lemma List_Run_enter_justified ctx (l : List) w :
  trace_justified ctx l (cfg_trace (List_Run_enter l w)).
Proof. intros i o Hin. by apply elem_of_nil in Hin. Qed.

(** A step adds to the trace only task outcomes that the registered task's
    [Run] method gave in the world of the step. *)
Lemma step_justified ctx (l : List) a (cf cf' : config) :
  List_Run_inv l cf →
  trace_justified ctx l (cfg_trace cf) →
  step ctx a cf = Some cf' →
  trace_justified ctx l (cfg_trace cf').
Proof.
  intros (_ & _ & Hpool) Hjust Hstep. unfold step in Hstep.
  destruct (crashed cf); [done|]. destruct a as [|i].
  - unfold List_Run_step in Hstep.
    destruct (cfg_main cf) as [n [|tsk rest]|]; simplify_eq; simpl; [done|].
    intros i o [Hin|Hin]%elem_of_app; [by apply Hjust|].
    by apply list_elem_of_singleton in Hin.
  - unfold pool_step in Hstep.
    destruct (cfg_pool cf !! i) as [g|] eqn:Hg; simpl in Hstep; [|done].
    destruct (goroutine_step ctx i g (cfg_world cf)) as [[[g' w'] ev]|] eqn:Hgs;
      simpl in Hstep; simplify_eq. simpl.
    intros j o [Hin|Hin]%elem_of_app; [by apply Hjust|].
    apply list_elem_of_singleton in Hin. subst ev.
    specialize (Hpool i). rewrite Hg in Hpool.
    destruct Hpool as (p & Hp & Hinv).
    destruct g as [t h|h err| |]; simpl in Hgs; [| |done|done].
    + destruct Hinv as (-> & _). exists p, (cfg_world cf).
      destruct (Task_Run (task_t p) ctx (cfg_world cf)) as [[e|] w1|w1];
        by simplify_eq.
    + destruct (call_ErrorHandler h err (cfg_world cf)); by simplify_eq.
Qed.

Lemma exec_justified ctx (l : List) sched : ∀ cf cf' : config,
  List_Run_inv l cf →
  trace_justified ctx l (cfg_trace cf) →
  exec ctx sched cf = Some cf' →
  trace_justified ctx l (cfg_trace cf').
Proof.
  induction sched as [|a sched IH]; intros cf cf' Hinv Hjust Hexec;
    simpl in Hexec.
  - by simplify_eq.
  - destruct (step ctx a cf) as [c1|] eqn:Hstep; simpl in Hexec; [|done].
    eauto using step_inv, step_justified.
Qed.

Lemma reachable_justified ctx (l : List) w (cf : config) :
  reachable ctx l w cf → trace_justified ctx l (cfg_trace cf).
Proof.
  intros [sched Hexec].
  eauto using exec_justified, List_Run_enter_inv, List_Run_enter_justified.
Qed.

(** X8. After [List.Run] has returned, a second [Run] on the same receiver
    with no [Add] in between starts no goroutine, leaves no event and does
    not change the world. *)
Theorem List_Run_again_after_return ctx (l : List) w (cf : config) w2 (cf2 : config) :
  reachable ctx l w cf →
  cfg_main cf = MReturned →
  reachable ctx (cfg_list cf) w2 cf2 →
  cfg_pool cf2 = [] ∧ cfg_trace cf2 = [] ∧ cfg_world cf2 = w2.
Proof.
  intros Hreach Hret [sched Hexec].
  destruct (reachable_inv _ _ _ _ Hreach) as (Hmain & _ & _).
  unfold main_inv in Hmain. rewrite Hret in Hmain. destruct Hmain as [_ Hl].
  rewrite Hl in Hexec.
  by destruct (exec_empty_List ctx {| List_tasks := None |} w2 sched cf2
                 eq_refl Hexec) as [-> | ->].
Qed.

(** X9. In every state [l.Run(ctx)] can reach, the task of each pair has
    been called at most once, and exactly once when the pair's goroutine is
    finished; a task is called only after the [go] statement of its pair,
    and only at a position that holds a registered pair. *)
Theorem List_Run_task_called_at_most_once ctx (l : List) w (cf : config) i :
  reachable ctx l w cf →
  length (task_runs i (cfg_trace cf)) ≤ 1 ∧
  (finished cf i → length (task_runs i (cfg_trace cf)) = 1) ∧
  (task_runs i (cfg_trace cf) ≠ [] →
     i ∈ launches (cfg_trace cf) ∧ i < len (List_tasks l)).
Proof.
  intros Hreach.
  destruct (reachable_inv _ _ _ _ Hreach) as (_ & Hgo & Hpool).
  specialize (Hpool i). unfold finished.
  destruct (cfg_pool cf !! i) as [g|] eqn:Hg.
  - destruct Hpool as (p & Hp & Hinv).
    assert (Hlaunched : i ∈ launches (cfg_trace cf) ∧ i < len (List_tasks l)).
    { split; [|by eapply lookup_lt_Some].
      rewrite Hgo. apply elem_of_seq. apply lookup_lt_Some in Hg. lia. }
    destruct g; simpl in Hinv;
      repeat match goal with
             | H : _ ∧ _ |- _ => destruct H
             | H : _ ∨ _ |- _ => destruct H
             | H : ∃ _, _ |- _ => destruct H
             | H : task_runs _ _ = _ |- _ => rewrite H
             end; simpl; (split_and!; [lia | | done]);
      intros [?|?]; by simplify_eq.
  - destruct Hpool as [-> _]. simpl. split_and!; [lia | | done].
    intros [?|?]; done.
Qed.

(** X10. In every state [l.Run(ctx)] can reach, a handler call that has
    happened is the call of the handler registered with that pair, its
    argument is a non-nil error, that error is what the pair's task
    returned, and it is the only handler call of the pair. *)
Theorem List_Run_handler_only_after_failure ctx (l : List) w (cf : config)
    i (h : ErrorHandler) err :
  reachable ctx l w cf →
  EvHandler i h err ∈ cfg_trace cf →
  ∃ p e, elems (List_tasks l) !! i = Some p ∧ h = task_e p ∧ err = Some e ∧
         task_runs i (cfg_trace cf) = [Returns (Some e)] ∧
         handler_calls i (cfg_trace cf) = [(h, err)].
Proof.
  intros Hreach Hin%elem_of_handler_calls.
  destruct (reachable_inv _ _ _ _ Hreach) as (_ & _ & Hpool).
  specialize (Hpool i).
  destruct (cfg_pool cf !! i) as [g|].
  - destruct Hpool as (p & Hp & Hinv). exists p.
    destruct g as [t h'|h' err'| |]; simpl in Hinv.
    + destruct Hinv as (_ & _ & _ & Hc). rewrite Hc in Hin.
      by apply elem_of_nil in Hin.
    + destruct Hinv as (_ & _ & _ & Hc). rewrite Hc in Hin.
      by apply elem_of_nil in Hin.
    + destruct Hinv as [[_ Hc]|(e & Hr & Hc & _)]; rewrite Hc in Hin.
      * by apply elem_of_nil in Hin.
      * apply list_elem_of_singleton in Hin. simplify_eq. by exists e.
    + destruct Hinv as [[_ Hc]|(e & Hr & Hc)]; rewrite Hc in Hin.
      * by apply elem_of_nil in Hin.
      * apply list_elem_of_singleton in Hin. simplify_eq. by exists e.
  - destruct Hpool as [_ Hc]. rewrite Hc in Hin. by apply elem_of_nil in Hin.
Qed.

(** X11. A nil [Task] can be registered in a List; in every state
    [l.Run(ctx)] can reach, its goroutine is either still at its start or has
    panicked: the task never returns, the pair's handler is never called,
    and when the goroutine takes its step it panics without changing the
    world, which ends the program. *)
Theorem List_Run_nil_task_panics ctx (l : List) w (cf : config) i (p : task) :
  reachable ctx l w cf →
  elems (List_tasks l) !! i = Some p →
  task_t p = nil_Task →
  (∀ o, EvTask i o ∈ cfg_trace cf → o = Panics) ∧
  handler_calls i (cfg_trace cf) = [] ∧
  (∀ g, cfg_pool cf !! i = Some g → g = spawn p ∨ g = GPanic) ∧
  (cfg_pool cf !! i = Some (spawn p) → crashed cf = false →
     ∃ cf' : config, step ctx (AGo i) cf = Some cf' ∧
       cfg_pool cf' !! i = Some GPanic ∧ crashed cf' = true ∧
       cfg_world cf' = cfg_world cf).
Proof.
  intros Hreach Hp Hnil.
  assert (Hpanics : ∀ o, EvTask i o ∈ cfg_trace cf → o = Panics).
  { intros o Hin.
    destruct (reachable_justified _ _ _ _ Hreach i o Hin) as (p' & w0 & Hp' & <-).
    simplify_eq. by rewrite Hnil. }
  assert (Hno_ret : ∀ err, task_runs i (cfg_trace cf) ≠ [Returns err]).
  { intros err Hr.
    assert (Hin : Returns err ∈ task_runs i (cfg_trace cf))
      by (rewrite Hr; apply list_elem_of_here).
    apply elem_of_task_runs_inv, Hpanics in Hin. done. }
  destruct (reachable_inv _ _ _ _ Hreach) as (_ & _ & Hpool).
  specialize (Hpool i).
  split_and!; [done | | |].
  - destruct (cfg_pool cf !! i) as [g|]; [|by destruct Hpool].
    destruct Hpool as (p' & Hp' & Hinv). simplify_eq.
    destruct g as [t h|h err| |]; simpl in Hinv.
    + by destruct Hinv as (_ & _ & _ & Hc).
    + by destruct Hinv as (_ & _ & _ & Hc).
    + destruct Hinv as [[_ Hc]|(e & Hr & _)]; [done|]. by apply Hno_ret in Hr.
    + destruct Hinv as [[_ Hc]|(e & Hr & _)]; [done|]. by apply Hno_ret in Hr.
  - intros g Hg. rewrite Hg in Hpool.
    destruct Hpool as (p' & Hp' & Hinv). simplify_eq.
    destruct g as [t h|h err| |]; simpl in Hinv.
    + destruct Hinv as (-> & -> & _). by left.
    + destruct Hinv as (_ & _ & Hr & _). by apply Hno_ret in Hr.
    + destruct Hinv as [[Hr _]|(e & Hr & _)]; by apply Hno_ret in Hr.
    + by right.
  - intros Hg Hcr. unfold step. rewrite Hcr. unfold pool_step.
    rewrite Hg. unfold spawn. rewrite Hnil. simpl.
    pose proof (lookup_lt_Some _ _ _ Hg) as Hlt.
    eexists. split; [done|]. simpl.
    split_and!; [by rewrite list_lookup_insert_eq | | done].
    eapply crashed_lookup. simpl. by rewrite list_lookup_insert_eq.
Qed.

(** X12. When every registered task returns nil whatever the world is, then
    in every state [l.Run(ctx)] can reach no handler has been called and no
    goroutine has panicked, whatever the handlers are: handlers that are nil
    are never reached. *)
Theorem List_Run_no_failure_no_handler ctx (l : List) w (cf : config) :
  (∀ p, p ∈ elems (List_tasks l) → always_succeeds ctx (task_t p)) →
  reachable ctx l w cf →
  crashed cf = false ∧
  (∀ i, handler_calls i (cfg_trace cf) = []) ∧
  (∀ i o, EvTask i o ∈ cfg_trace cf → o = Returns None).
Proof.
  intros Hall Hreach.
  assert (Hnil : ∀ i o, EvTask i o ∈ cfg_trace cf → o = Returns None).
  { intros i o Hin.
    destruct (reachable_justified _ _ _ _ Hreach i o Hin) as (p & w0 & Hp & <-).
    destruct (Hall p (list_elem_of_lookup_2 _ _ _ Hp) w0) as [w' ->]. done. }
  assert (Hruns : ∀ i o, task_runs i (cfg_trace cf) = [o] → o = Returns None).
  { intros i o Hr. apply (Hnil i), elem_of_task_runs_inv.
    rewrite Hr. apply list_elem_of_here. }
  destruct (reachable_inv _ _ _ _ Hreach) as (_ & _ & Hpool).
  split_and!; [| |done].
  - destruct (crashed cf) eqn:Hcr; [|done].
    unfold crashed in Hcr. apply existsb_exists in Hcr.
    destruct Hcr as (g & Hin & Hg). destruct g; try done.
    apply list_elem_of_In, list_elem_of_lookup_1 in Hin. destruct Hin as [i Hi].
    specialize (Hpool i). rewrite Hi in Hpool.
    destruct Hpool as (p & _ & [[Hr _]|(e & Hr & _)]);
      by apply Hruns in Hr.
  - intros i. specialize (Hpool i).
    destruct (cfg_pool cf !! i) as [g|]; [|by destruct Hpool].
    destruct Hpool as (p & Hp & Hinv).
    destruct g as [t h|h err| |]; simpl in Hinv.
    + by destruct Hinv as (_ & _ & _ & Hc).
    + by destruct Hinv as (_ & _ & _ & Hc).
    + destruct Hinv as [[_ Hc]|(e & Hr & _)]; [done|]. by apply Hruns in Hr.
    + destruct Hinv as [[_ Hc]|(e & Hr & _)]; [done|]. by apply Hruns in Hr.
Qed.

Lemma List_Add_all_elems (ps : list task) : ∀ l : List,
  elems (List_tasks (List_Add_all l ps)) = elems (List_tasks l) ++ ps.
Proof.
  unfold List_Add_all.
  induction ps as [|[t h] ps IH]; intros l; simpl.
  - by rewrite app_nil_r.
  - rewrite IH. unfold List_Add. simpl. by rewrite <- app_assoc.
Qed.

(** X13. [List.Add] appends: after registering pairs one by one the List
    holds the pairs it held before followed by the new ones in the order of
    the calls, and one more per call; run from the zero List, [Run] can
    return having started one goroutine per call of [Add], in that order. *)
Theorem List_Add_all_then_Run ctx (l : List) (ps : list task) w :
  elems (List_tasks (List_Add_all l ps)) = elems (List_tasks l) ++ ps ∧
  len (List_tasks (List_Add_all l ps)) = len (List_tasks l) + length ps ∧
  reachable ctx (List_Add_all List_zero ps) w
    {| cfg_list := List_zero; cfg_main := MReturned;
       cfg_pool := spawn <$> ps; cfg_world := w;
       cfg_trace := EvGo <$> seq 0 (length ps) |}.
Proof.
  split_and!.
  - apply List_Add_all_elems.
  - unfold len. by rewrite List_Add_all_elems, length_app.
  - exists (replicate (S (length ps)) AMain).
    unfold List_Run_enter.
    replace (elems (List_tasks (List_Add_all List_zero ps))) with ps
      by (by rewrite List_Add_all_elems).
    by rewrite exec_main_only.
Qed.

(** X14. What is added after a run that reset the receiver is a fresh batch:
    after [List.Run] has returned, and after a [Chain.Run] that returned
    nil, the receiver holds exactly what is added afterwards, in order. *)
Theorem Add_after_Run_is_fresh_batch ctx w :
  (∀ (l : List) (cf : config) (ps : list task),
     reachable ctx l w cf → cfg_main cf = MReturned →
     elems (List_tasks (List_Add_all (cfg_list cf) ps)) = ps) ∧
  (∀ c ts,
     r_exit (Chain_Run ctx c w) = Returned None →
     elems (Chain_tasks (Chain_Add (r_chain (Chain_Run ctx c w)) ts)) = ts).
Proof.
  split.
  - intros l cf ps Hreach Hret.
    destruct (reachable_inv _ _ _ _ Hreach) as (Hmain & _ & _).
    unfold main_inv in Hmain. rewrite Hret in Hmain. destruct Hmain as [_ ->].
    by rewrite List_Add_all_elems.
  - intros c ts Hexit.
    rewrite (Chain_Run_nil_clears_chain ctx c w Hexit).
    apply (elems_append None).
Qed.

End ksat_properties.

(** * The scenarios, evaluated *)

(** C1. The claim is that after [Chain.Run] completes with nil or with an
    error the task sequence is cleared, so that a second [Run] with no [Add]
    in between runs no task.  Evaluated on scenario B: [Run] returns the
    error "x", the receiver still holds its three tasks, and a second [Run]
    calls the first two tasks again. *)
Theorem Chain_Run_error_leaves_tasks :
  let r1 := Chain_Run () chain_B [] in
  let r2 := Chain_Run () (r_chain r1) (r_world r1) in
  r_exit r1 = Returned (Some "x") ∧
  r_chain r1 = chain_B ∧
  len (Chain_tasks (r_chain r1)) = 3 ∧
  r_trace r2 = [EvTask 0 (Returns None); EvTask 1 (Returns (Some "x"))] ∧
  r_world r2 = ["a"; "fail x"; "a"; "fail x"].
Proof. cbv zeta. split_and!; reflexivity. Qed.

(** Scenario B: the task at position 1 is the first to fail. *)
Lemma Chain_Run_first_failure_witness :
  r_exit (Chain_Run () chain_B []) = Returned (Some "x") ∧
  task_runs 0 (r_trace (Chain_Run () chain_B [])) = [Returns None] ∧
  task_runs 1 (r_trace (Chain_Run () chain_B [])) = [Returns (Some "x")] ∧
  task_runs 2 (r_trace (Chain_Run () chain_B [])) = [].
Proof.
  destruct (Chain_Run_first_failure () chain_B 1 (fail "x") "x" [] ["a"]
              ["a"; "fail x"]) as (Hexit & _ & _ & Hbefore & Hat & Hafter);
    [reflexivity | reflexivity | reflexivity |].
  split_and!; [exact Hexit | apply Hbefore; lia | exact Hat | apply Hafter; lia].
Defined.

(** Scenario A: no task fails. *)
Lemma Chain_Run_all_succeed_witness :
  r_exit (Chain_Run () chain_A []) = Returned None ∧
  r_trace (Chain_Run () chain_A [])
    = [EvTask 0 (Returns None); EvTask 1 (Returns None); EvTask 2 (Returns None)].
Proof.
  destruct (Chain_Run_all_succeed () chain_A [] ["a"; "b"; "c"])
    as (Hexit & _ & Htrace & _); [reflexivity|].
  split; [exact Hexit | exact Htrace].
Defined.

(** Scenario C.  With both goroutines finished, H2 was called once with "y"
    and H1 never; and from the state in which the failing task has returned
    and H2 is still to be called, the next step of that goroutine is the
    call, which leaves H2's line in the world. *)
Lemma List_Run_handler_called_iff_error_witness :
  handler_calls 1 (cfg_trace cfg_C_done) = [(report "H2", Some "y")] ∧
  handler_calls 0 (cfg_trace cfg_C_done) = [] ∧
  ∃ c' : @config unit log string,
    step () (AGo 1) cfg_C_pending = Some c' ∧
    cfg_world c' = ["fail y"; "a"; "H2 got y"] ∧
    cfg_pool c' !! 1 = Some GExit.
Proof.
  assert (Hreach : reachable () list_C [] cfg_C_done).
  { exists [AMain; AMain; AMain; AGo 1; AGo 0; AGo 1]. reflexivity. }
  assert (Hreach' : reachable () list_C [] cfg_C_pending).
  { exists [AMain; AMain; AMain; AGo 1; AGo 0]. reflexivity. }
  split_and!.
  - destruct (List_Run_handler_called_iff_error () list_C [] cfg_C_done 1
                (mk_task (fail "y") (report "H2")) Hreach eq_refl)
      as (_ & Hfail & _).
    apply (Hfail "y").
    + vm_compute. repeat constructor.
    + left. reflexivity.
  - destruct (List_Run_handler_called_iff_error () list_C [] cfg_C_done 0
                (mk_task (succeed "a") (report "H1")) Hreach eq_refl)
      as (_ & _ & Hok).
    apply Hok. vm_compute. repeat constructor.
  - destruct (List_Run_handler_called_iff_error () list_C [] cfg_C_pending 1
                (mk_task (fail "y") (report "H2")) Hreach' eq_refl)
      as (_ & Hfail & _).
    destruct (Hfail "y") as [_ Hnext].
    + vm_compute. repeat constructor.
    + destruct Hnext as (c' & Hstep & _ & _ & _ & _ & Hworld & Hpool).
      * intros [Hf|Hf]; vm_compute in Hf; discriminate Hf.
      * reflexivity.
      * exists c'. split_and!; [exact Hstep | exact Hworld | exact Hpool].
Defined.

(** Scenario C: the receiver is cleared, and [Run] can return before any
    goroutine has taken a step. *)
Lemma List_Run_clears_and_does_not_wait_witness :
  cfg_list cfg_C_done = List_zero ∧
  reachable () list_C [] cfg_C_returned.
Proof.
  destruct (List_Run_clears_and_does_not_wait () list_C []) as (Hclear & _ & Hret).
  split.
  - apply Hclear; [|reflexivity].
    exists [AMain; AMain; AMain; AGo 1; AGo 0; AGo 1]. reflexivity.
  - exact Hret.
Defined.

(** Scenario C: two goroutines, one per pair in registration order, and no
    task left in the receiver, whether no goroutine has started or both are
    finished. *)
Lemma List_Run_launches_each_pair_witness :
  cfg_pool cfg_C_returned = [spawn (mk_task (succeed "a") (report "H1"));
                             spawn (mk_task (fail "y") (report "H2"))] ∧
  launches (cfg_trace cfg_C_returned) = [0; 1] ∧
  len (List_tasks (cfg_list cfg_C_returned)) = 0 ∧
  cfg_pool cfg_C_done = [GExit; GExit] ∧
  launches (cfg_trace cfg_C_done) = [0; 1] ∧
  len (List_tasks (cfg_list cfg_C_done)) = 0.
Proof.
  assert (Hreach : reachable () list_C [] cfg_C_returned).
  { exists [AMain; AMain; AMain]. reflexivity. }
  assert (Hreach' : reachable () list_C [] cfg_C_done).
  { exists [AMain; AMain; AMain; AGo 1; AGo 0; AGo 1]. reflexivity. }
  destruct (List_Run_launches_each_pair () list_C [] cfg_C_returned Hreach)
    as (_ & _ & _ & Hret).
  destruct (List_Run_launches_each_pair () list_C [] cfg_C_done Hreach')
    as (_ & _ & _ & Hret').
  destruct (Hret eq_refl) as (_ & Hgo & Hlen).
  destruct (Hret' eq_refl) as (_ & Hgo' & Hlen').
  split_and!;
    [reflexivity | exact Hgo | exact Hlen | reflexivity | exact Hgo' | exact Hlen'].
Defined.

(** The zero List and the zero Chain. *)
Lemma Run_empty_is_noop_witness :
  exec () [AMain] (List_Run_enter (List_zero : @List unit log string) [])
    = Some {| cfg_list := List_zero; cfg_main := MReturned; cfg_pool := [];
              cfg_world := []; cfg_trace := [] |} ∧
  Chain_Run () (Chain_zero : @Chain unit log string) []
    = {| r_exit := Returned None; r_chain := Chain_zero; r_world := [];
         r_trace := [] |}.
Proof.
  destruct (Run_empty_is_noop (Err := string) () ([] : log)) as [HList HChain].
  split.
  - apply (HList List_zero). reflexivity.
  - apply (HChain Chain_zero). reflexivity.
Defined.

(** The zero values against [Chain{tasks: []Task{}}] and [List{tasks: []task{}}]. *)
Lemma zero_value_is_usable_witness :
  Chain_Run () (Chain_Add Chain_zero [fail "x"]) []
    = Chain_Run () (Chain_Add {| Chain_tasks := Some [] |} [fail "x"]) [] ∧
  List_Add List_zero (fail "y") (report "H2")
    = List_Add {| List_tasks := Some [] |} (fail "y") (report "H2").
Proof.
  destruct (zero_value_is_usable (Err := string) () ([] : log))
    as [HChain HList].
  split.
  - apply (HChain {| Chain_tasks := Some [] |} [fail "x"]). reflexivity.
  - apply (HList {| List_tasks := Some [] |} (fail "y") (report "H2")). reflexivity.
Defined.

(** A failing task with a nil handler: the goroutine ends in a panic. *)
Lemma List_Run_nil_handler_panics_witness :
  cfg_pool cfg_nil_handler_done !! 0 = Some GPanic ∧
  crashed cfg_nil_handler_done = true ∧
  handler_calls 0 (cfg_trace cfg_nil_handler_done) = [(nil_ErrorHandler, Some "y")].
Proof.
  assert (Hreach : reachable () list_nil_handler [] cfg_nil_handler_done).
  { exists [AMain; AGo 0; AGo 0]. reflexivity. }
  destruct (List_Run_nil_handler_panics () list_nil_handler []
              cfg_nil_handler_done 0 (mk_task (fail "y") nil_ErrorHandler)
              Hreach eq_refl eq_refl) as (Hfail & _ & _).
  apply (Hfail "y").
  - vm_compute. repeat constructor.
  - right. reflexivity.
Defined.

(** * Further scenarios, evaluated *)

(** Scenario A returned nil: its three tasks all succeeded. *)
Lemma Chain_Run_nil_only_if_all_succeed_witness :
  all_succeed () (elems (Chain_tasks chain_A)) [] = Some ["a"; "b"; "c"] ∧
  r_chain (Chain_Run () chain_A []) = Chain_zero.
Proof.
  destruct (Chain_Run_nil_only_if_all_succeed () chain_A [] eq_refl)
    as (Hok & _ & Hchain).
  split; [exact Hok | exact Hchain].
Defined.

(** Scenario B returned "x": some task returned it after the ones before
    it had succeeded. *)
Lemma Chain_Run_error_comes_from_first_failure_witness :
  ∃ k t wk,
    elems (Chain_tasks chain_B) !! k = Some t ∧
    all_succeed () (take k (elems (Chain_tasks chain_B))) [] = Some wk ∧
    Task_Run t () wk = Ret (Some "x") (r_world (Chain_Run () chain_B [])).
Proof.
  destruct (Chain_Run_error_comes_from_first_failure () chain_B [] "x" eq_refl)
    as (k & t & wk & Hk & Hok & Hrun & _).
  exists k, t, wk. split_and!; [exact Hk | exact Hok | exact Hrun].
Defined.

(** A nil Task at position 1: the first task ran, then [Run] panicked. *)
Lemma Chain_Run_panics_at_first_panic_witness :
  r_exit (Chain_Run () chain_nil_task []) = Panicked ∧
  r_world (Chain_Run () chain_nil_task []) = ["a"] ∧
  task_runs 2 (r_trace (Chain_Run () chain_nil_task [])) = [] ∧
  r_chain (Chain_Run () chain_nil_task []) = chain_nil_task.
Proof.
  destruct (Chain_Run_panics_at_first_panic () chain_nil_task 1 nil_Task []
              ["a"] ["a"]) as (Hexit & Hworld & _ & Hafter & Hchain);
    [reflexivity | reflexivity | reflexivity |].
  split_and!; [exact Hexit | exact Hworld | apply Hafter; lia | exact Hchain].
Defined.

(** Scenario A run twice: the second run does nothing. *)
Lemma Chain_Run_again_after_success_witness :
  r_trace (Chain_Run () (r_chain (Chain_Run () chain_A [])) ["a"; "b"; "c"]) = [] ∧
  r_world (Chain_Run () (r_chain (Chain_Run () chain_A [])) ["a"; "b"; "c"])
    = ["a"; "b"; "c"].
Proof.
  rewrite (Chain_Run_again_after_success () chain_A [] ["a"; "b"; "c"] eq_refl).
  split; reflexivity.
Defined.

(** Scenario C, returned with both goroutines finished, then run again. *)
Lemma List_Run_again_after_return_witness :
  cfg_pool (default cfg_C_done
              (exec () [AMain] (List_Run_enter (cfg_list cfg_C_done) ["later"])))
    = [] ∧
  cfg_world (default cfg_C_done
               (exec () [AMain] (List_Run_enter (cfg_list cfg_C_done) ["later"])))
    = ["later"].
Proof.
  destruct (List_Run_again_after_return () list_C [] cfg_C_done ["later"]
              (default cfg_C_done
                 (exec () [AMain] (List_Run_enter (cfg_list cfg_C_done) ["later"]))))
    as (Hpool & _ & Hworld).
  - exists [AMain; AMain; AMain; AGo 1; AGo 0; AGo 1]. reflexivity.
  - reflexivity.
  - exists [AMain]. reflexivity.
  - split; [exact Hpool | exact Hworld].
Defined.

(** Scenario C with both goroutines finished: each task was called once. *)
Lemma List_Run_task_called_at_most_once_witness :
  length (task_runs 0 (cfg_trace cfg_C_done)) = 1 ∧
  length (task_runs 1 (cfg_trace cfg_C_done)) = 1.
Proof.
  assert (Hreach : reachable () list_C [] cfg_C_done).
  { exists [AMain; AMain; AMain; AGo 1; AGo 0; AGo 1]. reflexivity. }
  destruct (List_Run_task_called_at_most_once () list_C [] cfg_C_done 0 Hreach)
    as (_ & Hfin0 & _).
  destruct (List_Run_task_called_at_most_once () list_C [] cfg_C_done 1 Hreach)
    as (_ & Hfin1 & _).
  split; [apply Hfin0 | apply Hfin1]; left; reflexivity.
Defined.

(** Scenario C: the one handler call there is is H2's, with the error "y" of
    its own task. *)
Lemma List_Run_handler_only_after_failure_witness :
  ∃ p e, elems (List_tasks list_C) !! 1 = Some p ∧ report "H2" = task_e p ∧
         Some "y" = Some e ∧
         task_runs 1 (cfg_trace cfg_C_done) = [Returns (Some e)].
Proof.
  destruct (List_Run_handler_only_after_failure () list_C [] cfg_C_done 1
              (report "H2") (Some "y")) as (p & e & Hp & Hh & He & Hr & _).
  - exists [AMain; AMain; AMain; AGo 1; AGo 0; AGo 1]. reflexivity.
  - vm_compute. repeat constructor.
  - exists p, e. split_and!; [exact Hp | exact Hh | exact He | exact Hr].
Defined.

(** A List holding a nil Task: the goroutine's step is a panic. *)
Lemma List_Run_nil_task_panics_witness :
  ∃ cf' : @config unit log string,
    step () (AGo 0)
      (default (List_Run_enter list_nil_task [])
         (exec () [AMain] (List_Run_enter list_nil_task []))) = Some cf' ∧
    cfg_pool cf' !! 0 = Some GPanic ∧ crashed cf' = true.
Proof.
  destruct (List_Run_nil_task_panics () list_nil_task []
              (default (List_Run_enter list_nil_task [])
                 (exec () [AMain] (List_Run_enter list_nil_task [])))
              0 (mk_task nil_Task (report "H"))) as (_ & _ & _ & Hstep).
  - exists [AMain]. reflexivity.
  - reflexivity.
  - reflexivity.
  - destruct (Hstep eq_refl eq_refl) as (cf' & Hs & Hg & Hcr & _).
    exists cf'. split_and!; [exact Hs | exact Hg | exact Hcr].
Defined.

(** Two tasks that succeed, with nil handlers: no crash and no handler call. *)
Lemma List_Run_no_failure_no_handler_witness :
  crashed cfg_ok_done = false ∧
  handler_calls 0 (cfg_trace cfg_ok_done) = [] ∧
  handler_calls 1 (cfg_trace cfg_ok_done) = [].
Proof.
  destruct (List_Run_no_failure_no_handler () list_ok [] cfg_ok_done)
    as (Hcr & Hcalls & _).
  - intros p Hp w. apply list_elem_of_In in Hp. vm_compute in Hp.
    destruct Hp as [<- | [<- | []]]; eexists; reflexivity.
  - exists [AMain; AMain; AGo 1; AMain; AGo 0]. reflexivity.
  - split_and!; [exact Hcr | apply Hcalls | apply Hcalls].
Defined.

(** Scenario C and scenario A, each followed by one more [Add]. *)
Lemma Add_after_Run_is_fresh_batch_witness :
  elems (List_tasks (List_Add_all (cfg_list cfg_C_done)
                       [mk_task (succeed "z") (report "H")]))
    = [mk_task (succeed "z") (report "H")] ∧
  elems (Chain_tasks (Chain_Add (r_chain (Chain_Run () chain_A [])) [succeed "z"]))
    = [succeed "z"].
Proof.
  destruct (Add_after_Run_is_fresh_batch (Err := string) () ([] : log))
    as [HList HChain].
  split.
  - apply (HList list_C cfg_C_done); [|reflexivity].
    exists [AMain; AMain; AMain; AGo 1; AGo 0; AGo 1]. reflexivity.
  - apply (HChain chain_A). reflexivity.
Defined.
